(** * rev-api: the Laravel envelope decryptor and the movie normaliser of app.py

    A shallow embedding of [src/app.py].  Python values are modelled as the
    program uses them: a [str] is a list of Unicode code points, [bytes] a
    list of [Byte.byte], a [dict] an association list in insertion order,
    and a call that may raise returns an [outcome]. *)

From Stdlib Require Import Strings.String Strings.Ascii Strings.Byte.
From Stdlib Require Import DecimalString Floats.
From Stdlib Require Import List NArith ZArith Lia Bool Arith Btauto.
Import ListNotations.

Set Default Goal Selector "!".

(** ** Python strings *)

Abbreviation char := N.
Abbreviation str := (list char).
Abbreviation bytes := (list byte).

(** A string literal of the source, as code points. *)
Definition lit (s : string) : str :=
  map N_of_ascii (list_ascii_of_string s).

(** The characters the unwrapper looks for. *)
Definition DQUOTE : char := 34%N.
Definition COLON : char := 58%N.
Definition SEMICOLON : char := 59%N.
Definition EQUALS : char := 61%N.

Fixpoint str_eqb (a b : str) : bool :=
  match a, b with
  | [], [] => true
  | x :: a', y :: b' => N.eqb x y && str_eqb a' b'
  | _, _ => false
  end.

(** [s.startswith(p)] *)
Fixpoint startswith (s p : str) {struct p} : bool :=
  match p, s with
  | [], _ => true
  | x :: p', y :: s' => N.eqb x y && startswith s' p'
  | _ :: _, [] => false
  end.

(** [s.endswith(p)] *)
Definition endswith (s p : str) : bool :=
  (length p <=? length s)%nat && str_eqb (skipn (length s - length p) s) p.

(** How Python turns a slice bound into a position of a sequence of
    length [n]: a negative bound counts from the end, and the result is
    clamped to [0 .. n]. *)
Definition adjust_index (n : nat) (i : Z) : nat :=
  let len := Z.of_nat n in
  if (i <? 0)%Z then Z.to_nat (Z.max 0 (i + len)) else Z.to_nat (Z.min i len).

(** [s[start:stop]] *)
Definition py_slice {A : Type} (s : list A) (start stop : Z) : list A :=
  let a := adjust_index (length s) start in
  let b := adjust_index (length s) stop in
  firstn (b - a) (skipn a s).

(** Lowest position at which [sub] occurs in [s]. *)
Fixpoint index_of (sub s : str) : option nat :=
  if startswith s sub then Some 0%nat
  else match s with
       | [] => None
       | _ :: t => option_map S (index_of sub t)
       end.

(** Highest position at which [sub] occurs in [s]. *)
Fixpoint rindex_of (sub s : str) : option nat :=
  match s with
  | [] => if startswith [] sub then Some 0%nat else None
  | _ :: t =>
      match rindex_of sub t with
      | Some i => Some (S i)
      | None => if startswith s sub then Some 0%nat else None
      end
  end.

(** [len(s)] as the integer Python gives. *)
Definition len {A : Type} (s : list A) : Z := Z.of_nat (length s).

(** The bounds of [find] and [rfind]: [stop] is clamped like a slice
    bound, [start] only has a negative value counted from the end. *)
Definition find_start (n : nat) (i : Z) : Z :=
  if (i <? 0)%Z then Z.max 0 (i + Z.of_nat n) else i.

(** [s.find(sub, start, stop)]: the lowest index in [s[start:stop]] where
    [sub] is found, or -1. *)
Definition str_find (sub s : str) (start stop : Z) : Z :=
  let a := find_start (length s) start in
  let b := Z.of_nat (adjust_index (length s) stop) in
  if (b - a <? len sub)%Z then (-1)%Z
  else match index_of sub (firstn (Z.to_nat (b - a)) (skipn (Z.to_nat a) s)) with
       | Some i => (a + Z.of_nat i)%Z
       | None => (-1)%Z
       end.

(** [s.rfind(sub, start, stop)]: the highest such index, or -1. *)
Definition str_rfind (sub s : str) (start stop : Z) : Z :=
  let a := find_start (length s) start in
  let b := Z.of_nat (adjust_index (length s) stop) in
  if (b - a <? len sub)%Z then (-1)%Z
  else match rindex_of sub (firstn (Z.to_nat (b - a)) (skipn (Z.to_nat a) s)) with
       | Some i => (a + Z.of_nat i)%Z
       | None => (-1)%Z
       end.

(** ** The Laravel string unwrapper (app.py, lines 85-102)

    The post-decryption cleaning of [decrypt_laravel_string_unsafe], which
    the specification calls [unwrap]. *)

Definition strip_quotes (plaintext : str) : str :=
  if startswith plaintext [DQUOTE] && endswith plaintext [DQUOTE]
  then py_slice plaintext 1 (-1)
  else plaintext.

Definition strip_php_serialized (plaintext : str) : str :=
  if startswith plaintext (lit "s:") && endswith plaintext [SEMICOLON] then
    let first_colon_index := str_find [COLON] plaintext 2 (len plaintext) in
    if negb (first_colon_index =? -1)%Z then
      let first_quote_index :=
        str_find [DQUOTE] plaintext first_colon_index (len plaintext) in
      if negb (first_quote_index =? -1)%Z then
        let last_quote_index :=
          str_rfind [DQUOTE] plaintext 0 (len plaintext - 1) in
        if negb (last_quote_index =? -1)%Z
           && (last_quote_index >? first_quote_index)%Z
        then py_slice plaintext (first_quote_index + 1) last_quote_index
        else plaintext
      else plaintext
    else plaintext
  else plaintext.

Definition unwrap (plaintext : str) : str :=
  strip_php_serialized (strip_quotes plaintext).

(** Whether a string carries one of the two framings the unwrapper strips. *)
Definition quoted (s : str) : bool :=
  startswith s [DQUOTE] && endswith s [DQUOTE].

Definition serialized_shape (s : str) : bool :=
  startswith s (lit "s:") && endswith s [SEMICOLON].

(** The decimal digits, as the length field of a PHP serialized string. *)
Definition is_digit (c : char) : bool := (48 <=? c)%N && (c <=? 57)%N.

(** The shapes of a string that starts with [s:] and lacks one of the
    landmarks the unwrapper looks for: no colon after position 2; or no
    quote from the first colon on; or no second quote between the first
    quote and the final character. *)
Inductive landmark_absent : str -> Prop :=
| no_colon (y : str) :
    ~ In COLON y -> landmark_absent (lit "s:" ++ y)
| no_first_quote (u r : str) :
    ~ In COLON u -> ~ In DQUOTE r ->
    landmark_absent (lit "s:" ++ u ++ COLON :: r)
| no_later_quote (u v r : str) :
    ~ In COLON u -> ~ In DQUOTE v -> ~ In DQUOTE (removelast r) ->
    landmark_absent (lit "s:" ++ u ++ COLON :: v ++ DQUOTE :: r).

(** The letter a inside two layers of double quotes. *)
Definition doubly_quoted : str := [DQUOTE; DQUOTE] ++ lit "a" ++ [DQUOTE; DQUOTE].

(** ** Exceptions, outcomes and Python values *)

(** The exception classes the program meets, with [Exception] for any
    other one.  [BinasciiError] is [binascii.Error]; the last seven are
    those of the [requests] library. *)
Inductive exn_class : Type :=
| Exception
| ValueError | TypeError | KeyError | UnboundLocalError
| JSONDecodeError | BinasciiError | UnicodeDecodeError | UnicodeEncodeError
| RequestException | HTTPError | ConnectionError | Timeout
| ConnectTimeout | ReadTimeout | RequestsJSONDecodeError.

Definition exn_class_eqb (a b : exn_class) : bool :=
  match a, b with
  | Exception, Exception | ValueError, ValueError | TypeError, TypeError
  | KeyError, KeyError | UnboundLocalError, UnboundLocalError
  | JSONDecodeError, JSONDecodeError | BinasciiError, BinasciiError
  | UnicodeDecodeError, UnicodeDecodeError
  | UnicodeEncodeError, UnicodeEncodeError
  | RequestException, RequestException | HTTPError, HTTPError
  | ConnectionError, ConnectionError | Timeout, Timeout
  | ConnectTimeout, ConnectTimeout | ReadTimeout, ReadTimeout
  | RequestsJSONDecodeError, RequestsJSONDecodeError => true
  | _, _ => false
  end.

(** The classes an exception of class [c] is an instance of, among those
    above: [c] itself and its bases. *)
Definition bases (c : exn_class) : list exn_class :=
  match c with
  | Exception => [Exception]
  | ValueError => [ValueError; Exception]
  | TypeError => [TypeError; Exception]
  | KeyError => [KeyError; Exception]
  | UnboundLocalError => [UnboundLocalError; Exception]
  | JSONDecodeError => [JSONDecodeError; ValueError; Exception]
  | BinasciiError => [BinasciiError; ValueError; Exception]
  | UnicodeDecodeError => [UnicodeDecodeError; ValueError; Exception]
  | UnicodeEncodeError => [UnicodeEncodeError; ValueError; Exception]
  | RequestException => [RequestException; Exception]
  | HTTPError => [HTTPError; RequestException; Exception]
  | ConnectionError => [ConnectionError; RequestException; Exception]
  | Timeout => [Timeout; RequestException; Exception]
  | ConnectTimeout =>
      [ConnectTimeout; ConnectionError; Timeout; RequestException; Exception]
  | ReadTimeout => [ReadTimeout; Timeout; RequestException; Exception]
  | RequestsJSONDecodeError =>
      [RequestsJSONDecodeError; JSONDecodeError; ValueError;
       RequestException; Exception]
  end.

(** An exception: its class and the first argument it was raised with
    (the message, the missing key, the codec name). *)
Record exn : Type := Exn { exn_cls : exn_class; exn_arg : str }.

Inductive outcome (A : Type) : Type :=
| Returns (a : A)
| Raises (e : exn).
Arguments Returns {A} a.
Arguments Raises {A} e.

Definition bind {A B : Type} (m : outcome A) (k : A -> outcome B) : outcome B :=
  match m with
  | Returns a => k a
  | Raises e => Raises e
  end.

Declare Scope outcome_scope.
Delimit Scope outcome_scope with outcome.
Notation "x <- m ;; k" := (bind m (fun x => k))
  (at level 61, m at next level, right associativity) : outcome_scope.
Open Scope outcome_scope.

(** [raise C(msg)] *)
Definition raise {A : Type} (c : exn_class) (msg : string) : outcome A :=
  Raises (Exn c (lit msg)).

(** Whether [except h1, h2, ...] catches the exception [e]. *)
Definition except_matches (handlers : list exn_class) (e : exn) : bool :=
  existsb (fun h => existsb (exn_class_eqb h) (bases (exn_cls e))) handlers.

(** What a JSON document decodes to, and what the handlers pass around. *)
#[warnings="-register-all"]
Inductive pyval : Type :=
| PNone
| PBool (b : bool)
| PInt (z : Z)
| PFloat (f : float)
| PStr (s : str)
| PList (l : list pyval)
| PDict (d : list (str * pyval)).

(** ** Dictionaries: association lists in insertion order *)

Section Dict.
Context {V : Type}.

Definition dict := list (str * V).

Definition keys (d : dict) : list str := map fst d.

(** [d.get(k)], [None] when the key is missing. *)
Fixpoint dict_get (k : str) (d : dict) : option V :=
  match d with
  | [] => None
  | (k', v) :: d' => if str_eqb k k' then Some v else dict_get k d'
  end.

(** [k in d] *)
Definition dict_mem (k : str) (d : dict) : bool :=
  match dict_get k d with Some _ => true | None => false end.

(** [d[k] = v]: a key already there keeps its place, a new key goes last. *)
Fixpoint dict_set (k : str) (v : V) (d : dict) : dict :=
  match d with
  | [] => [(k, v)]
  | (k', v') :: d' =>
      if str_eqb k k' then (k', v) :: d' else (k', v') :: dict_set k v d'
  end.

End Dict.
Arguments dict V : clear implicits.

(** [type(v).__name__] *)
Definition type_name (v : pyval) : string :=
  match v with
  | PNone => "NoneType"
  | PBool _ => "bool"
  | PInt _ => "int"
  | PFloat _ => "float"
  | PStr _ => "str"
  | PList _ => "list"
  | PDict _ => "dict"
  end.

(** [v[k]] for a string [k] *)
Definition subscript (v : pyval) (k : str) : outcome pyval :=
  match v with
  | PDict d =>
      match dict_get k d with
      | Some x => Returns x
      | None => Raises (Exn KeyError k)
      end
  | PList _ => raise TypeError "list indices must be integers or slices, not str"
  | PStr _ => raise TypeError "string indices must be integers, not 'str'"
  | PNone => raise TypeError "'NoneType' object is not subscriptable"
  | PBool _ => raise TypeError "'bool' object is not subscriptable"
  | PInt _ => raise TypeError "'int' object is not subscriptable"
  | PFloat _ => raise TypeError "'float' object is not subscriptable"
  end.

(** ** Bytes *)

(** The byte of a number, modulo 256. *)
Definition byte_of_N (n : N) : byte :=
  match Byte.of_N (n mod 256) with
  | Some b => b
  | None => x00
  end.

(** [s.encode('ascii')], as [base64] applies it to a string argument. *)
Fixpoint ascii_encode (s : str) : option bytes :=
  match s with
  | [] => Some []
  | c :: s' =>
      if (c <? 128)%N
      then option_map (cons (byte_of_N c)) (ascii_encode s')
      else None
  end.

(** [b.decode('ascii')] of bytes below 128, as [base64.b64encode(...).decode()]. *)
Definition ascii_decode (b : bytes) : str := map Byte.to_N b.

(** [str(n)] of a non-negative integer. *)
Definition str_of_nat (n : nat) : str :=
  lit (NilEmpty.string_of_uint (Nat.to_uint n)).

(** ** Base64 (the [binascii] module behind [base64.b64decode]) *)

(** [table_a2b_base64]: the value of an alphabet character. *)
Definition table_a2b_base64 (c : byte) : option N :=
  let n := Byte.to_N c in
  if (65 <=? n)%N && (n <=? 90)%N then Some (n - 65)%N
  else if (97 <=? n)%N && (n <=? 122)%N then Some (n - 71)%N
  else if (48 <=? n)%N && (n <=? 57)%N then Some (n + 4)%N
  else if (n =? 43)%N then Some 62%N
  else if (n =? 47)%N then Some 63%N
  else None.

(** [table_b2a_base64]: the character of a value below 64. *)
Definition table_b2a_base64 (v : N) : byte :=
  if (v <? 26)%N then byte_of_N (v + 65)
  else if (v <? 52)%N then byte_of_N (v + 71)
  else if (v <? 62)%N then byte_of_N (v - 4)
  else if (v =? 62)%N then byte_of_N 43
  else byte_of_N 47.

Definition BASE64_PAD : byte := byte_of_N 61.

(** The loop of [binascii.a2b_base64] in its default, non-strict mode:
    characters outside the alphabet are skipped, a pad character counts
    only from the third position of a quad on, and a complete pad sequence
    ends the decoding.  [out] is what has been written so far. *)
Fixpoint a2b_base64_loop (data : bytes) (quad_pos : nat) (leftchar : N)
         (pads : nat) (out : bytes) : outcome bytes :=
  match data with
  | [] =>
      if (quad_pos =? 0)%nat then Returns out
      else if (quad_pos =? 1)%nat then
        Raises (Exn BinasciiError
                  (lit "Invalid base64-encoded string: number of data characters ("
                     ++ str_of_nat (length out / 3 * 4 + 1)
                     ++ lit ") cannot be 1 more than a multiple of 4"))
      else raise BinasciiError "Incorrect padding"
  | this_ch :: rest =>
      if Byte.eqb this_ch BASE64_PAD then
        if (2 <=? quad_pos)%nat then
          if (4 <=? quad_pos + (pads + 1))%nat then Returns out
          else a2b_base64_loop rest quad_pos leftchar (pads + 1) out
        else a2b_base64_loop rest quad_pos leftchar pads out
      else
        match table_a2b_base64 this_ch with
        | None => a2b_base64_loop rest quad_pos leftchar pads out
        | Some v =>
            match quad_pos with
            | 0%nat => a2b_base64_loop rest 1 v 0 out
            | 1%nat =>
                a2b_base64_loop rest 2 (N.land v 15) 0
                  (out ++ [byte_of_N (N.lor (N.shiftl leftchar 2) (N.shiftr v 4))])
            | 2%nat =>
                a2b_base64_loop rest 3 (N.land v 3) 0
                  (out ++ [byte_of_N (N.lor (N.shiftl leftchar 4) (N.shiftr v 2))])
            | _ =>
                a2b_base64_loop rest 0 0 0
                  (out ++ [byte_of_N (N.lor (N.shiftl leftchar 6) v)])
            end
        end
  end.

Definition a2b_base64 (data : bytes) : outcome bytes :=
  a2b_base64_loop data 0 0 0 [].

(** [base64.b64decode(s)] for a string [s]: the string must be ASCII. *)
Definition b64decode (s : str) : outcome bytes :=
  match ascii_encode s with
  | Some data => a2b_base64 data
  | None => raise ValueError "string argument should contain only ASCII characters"
  end.

(** [base64.b64decode(v)] for a decoded JSON value [v]. *)
Definition b64decode_val (v : pyval) : outcome bytes :=
  match v with
  | PStr s => b64decode s
  | _ =>
      Raises (Exn TypeError
                (lit "argument should be a bytes-like object or ASCII string, not '"
                   ++ lit (type_name v) ++ lit "'"))
  end.

(** [binascii.b2a_base64] without the newline, as [base64.b64encode] calls
    it: the encoder of the side that builds an envelope. *)
Fixpoint b2a_base64 (data : bytes) : bytes :=
  match data with
  | [] => []
  | [a] =>
      let a := Byte.to_N a in
      [table_b2a_base64 (N.shiftr a 2);
       table_b2a_base64 (N.shiftl (N.land a 3) 4);
       BASE64_PAD; BASE64_PAD]
  | [a; b] =>
      let a := Byte.to_N a in
      let b := Byte.to_N b in
      [table_b2a_base64 (N.shiftr a 2);
       table_b2a_base64 (N.lor (N.shiftl (N.land a 3) 4) (N.shiftr b 4));
       table_b2a_base64 (N.shiftl (N.land b 15) 2);
       BASE64_PAD]
  | a :: b :: c :: rest =>
      let a := Byte.to_N a in
      let b := Byte.to_N b in
      let c := Byte.to_N c in
      table_b2a_base64 (N.shiftr a 2)
      :: table_b2a_base64 (N.lor (N.shiftl (N.land a 3) 4) (N.shiftr b 4))
      :: table_b2a_base64 (N.lor (N.shiftl (N.land b 15) 2) (N.shiftr c 6))
      :: table_b2a_base64 (N.land c 63)
      :: b2a_base64 rest
  end.

(** [base64.b64encode(data).decode()] *)
Definition b64encode (data : bytes) : str := ascii_decode (b2a_base64 data).

(** The bytes of an ASCII literal. *)
Definition blit (s : string) : bytes := map byte_of_ascii (list_ascii_of_string s).

(** ** UTF-8 (the strict codec of [str.encode] and [bytes.decode]) *)

Definition is_surrogate (c : char) : bool := (0xD800 <=? c)%N && (c <=? 0xDFFF)%N.

(** The encoding of one code point; [None] for a surrogate (and for a
    number that is no code point, which a [str] cannot hold). *)
Definition utf8_encode_char (c : char) : option bytes :=
  if (c <? 0x80)%N then Some [byte_of_N c]
  else if (c <? 0x800)%N then
    Some [byte_of_N (0xC0 + c / 64); byte_of_N (0x80 + c mod 64)]
  else if (c <? 0x10000)%N then
    if is_surrogate c then None
    else Some [byte_of_N (0xE0 + c / 4096);
               byte_of_N (0x80 + (c / 64) mod 64);
               byte_of_N (0x80 + c mod 64)]
  else if (c <? 0x110000)%N then
    Some [byte_of_N (0xF0 + c / 262144);
          byte_of_N (0x80 + (c / 4096) mod 64);
          byte_of_N (0x80 + (c / 64) mod 64);
          byte_of_N (0x80 + c mod 64)]
  else None.

Fixpoint utf8_encode_opt (s : str) : option bytes :=
  match s with
  | [] => Some []
  | c :: s' =>
      match utf8_encode_char c, utf8_encode_opt s' with
      | Some b, Some bs => Some (b ++ bs)
      | _, _ => None
      end
  end.

(** [s.encode('utf-8')] *)
Definition utf8_encode (s : str) : outcome bytes :=
  match utf8_encode_opt s with
  | Some b => Returns b
  | None => raise UnicodeEncodeError "utf-8"
  end.

(** A continuation byte, 10xxxxxx. *)
Definition is_cont (n : N) : bool := (0x80 <=? n)%N && (n <? 0xC0)%N.

(** The strict decoder: shortest form only, no surrogate, nothing above
    U+10FFFF. *)
Fixpoint utf8_decode_opt (data : bytes) : option str :=
  match data with
  | [] => Some []
  | b0 :: r0 =>
      let n0 := Byte.to_N b0 in
      if (n0 <? 0x80)%N then option_map (cons n0) (utf8_decode_opt r0)
      else if (n0 <? 0xC2)%N then None
      else if (n0 <? 0xE0)%N then
        match r0 with
        | b1 :: r1 =>
            let n1 := Byte.to_N b1 in
            if is_cont n1
            then option_map (cons ((n0 - 0xC0) * 64 + (n1 - 0x80))%N)
                            (utf8_decode_opt r1)
            else None
        | _ => None
        end
      else if (n0 <? 0xF0)%N then
        match r0 with
        | b1 :: b2 :: r2 =>
            let n1 := Byte.to_N b1 in
            let n2 := Byte.to_N b2 in
            let c := ((n0 - 0xE0) * 4096 + (n1 - 0x80) * 64 + (n2 - 0x80))%N in
            if is_cont n1 && is_cont n2 && (0x800 <=? c)%N && negb (is_surrogate c)
            then option_map (cons c) (utf8_decode_opt r2)
            else None
        | _ => None
        end
      else if (n0 <? 0xF5)%N then
        match r0 with
        | b1 :: b2 :: b3 :: r3 =>
            let n1 := Byte.to_N b1 in
            let n2 := Byte.to_N b2 in
            let n3 := Byte.to_N b3 in
            let c := ((n0 - 0xF0) * 262144 + (n1 - 0x80) * 4096
                      + (n2 - 0x80) * 64 + (n3 - 0x80))%N in
            if is_cont n1 && is_cont n2 && is_cont n3
               && (0x10000 <=? c)%N && (c <? 0x110000)%N
            then option_map (cons c) (utf8_decode_opt r3)
            else None
        | _ => None
        end
      else None
  end.

(** [b.decode('utf-8')] *)
Definition utf8_decode (data : bytes) : outcome str :=
  match utf8_decode_opt data with
  | Some s => Returns s
  | None => raise UnicodeDecodeError "utf-8"
  end.

(** ** PKCS7 padding ([Crypto.Util.Padding]) *)

Definition pad (data_to_pad : bytes) (block_size : nat) : bytes :=
  let padding_len := (block_size - length data_to_pad mod block_size)%nat in
  data_to_pad ++ repeat (byte_of_N (N.of_nat padding_len)) padding_len.

Fixpoint bytes_eqb (a b : bytes) : bool :=
  match a, b with
  | [], [] => true
  | x :: a', y :: b' => Byte.eqb x y && bytes_eqb a' b'
  | _, _ => false
  end.

Definition unpad (padded_data : bytes) (block_size : nat) : outcome bytes :=
  let pdata_len := length padded_data in
  if (pdata_len =? 0)%nat then
    raise ValueError "Zero-length input cannot be unpadded"
  else if negb (pdata_len mod block_size =? 0)%nat then
    raise ValueError "Input data is not padded"
  else
    let padding_len := Byte.to_nat (last padded_data x00) in
    if (padding_len <? 1)%nat || (Nat.min block_size pdata_len <? padding_len)%nat then
      raise ValueError "Padding is incorrect."
    else if negb (bytes_eqb (skipn (pdata_len - padding_len) padded_data)
                            (repeat (byte_of_N (N.of_nat padding_len)) padding_len)) then
      raise ValueError "PKCS#7 padding is incorrect."
    else Returns (firstn (pdata_len - padding_len) padded_data).

(** ** AES (FIPS 197) and the CBC mode of [Crypto.Cipher.AES] *)

Definition xor_byte (a b : byte) : byte :=
  byte_of_N (N.lxor (Byte.to_N a) (Byte.to_N b)).

Fixpoint xor_bytes (a b : bytes) : bytes :=
  match a, b with
  | x :: a', y :: b' => xor_byte x y :: xor_bytes a' b'
  | _, _ => []
  end.

Definition SBOX : list byte :=
  [
   x63; x7c; x77; x7b; xf2; x6b; x6f; xc5; x30; x01; x67; x2b; xfe; xd7; xab; x76;
   xca; x82; xc9; x7d; xfa; x59; x47; xf0; xad; xd4; xa2; xaf; x9c; xa4; x72; xc0;
   xb7; xfd; x93; x26; x36; x3f; xf7; xcc; x34; xa5; xe5; xf1; x71; xd8; x31; x15;
   x04; xc7; x23; xc3; x18; x96; x05; x9a; x07; x12; x80; xe2; xeb; x27; xb2; x75;
   x09; x83; x2c; x1a; x1b; x6e; x5a; xa0; x52; x3b; xd6; xb3; x29; xe3; x2f; x84;
   x53; xd1; x00; xed; x20; xfc; xb1; x5b; x6a; xcb; xbe; x39; x4a; x4c; x58; xcf;
   xd0; xef; xaa; xfb; x43; x4d; x33; x85; x45; xf9; x02; x7f; x50; x3c; x9f; xa8;
   x51; xa3; x40; x8f; x92; x9d; x38; xf5; xbc; xb6; xda; x21; x10; xff; xf3; xd2;
   xcd; x0c; x13; xec; x5f; x97; x44; x17; xc4; xa7; x7e; x3d; x64; x5d; x19; x73;
   x60; x81; x4f; xdc; x22; x2a; x90; x88; x46; xee; xb8; x14; xde; x5e; x0b; xdb;
   xe0; x32; x3a; x0a; x49; x06; x24; x5c; xc2; xd3; xac; x62; x91; x95; xe4; x79;
   xe7; xc8; x37; x6d; x8d; xd5; x4e; xa9; x6c; x56; xf4; xea; x65; x7a; xae; x08;
   xba; x78; x25; x2e; x1c; xa6; xb4; xc6; xe8; xdd; x74; x1f; x4b; xbd; x8b; x8a;
   x70; x3e; xb5; x66; x48; x03; xf6; x0e; x61; x35; x57; xb9; x86; xc1; x1d; x9e;
   xe1; xf8; x98; x11; x69; xd9; x8e; x94; x9b; x1e; x87; xe9; xce; x55; x28; xdf;
   x8c; xa1; x89; x0d; xbf; xe6; x42; x68; x41; x99; x2d; x0f; xb0; x54; xbb; x16 ].

Definition INV_SBOX : list byte :=
  [
   x52; x09; x6a; xd5; x30; x36; xa5; x38; xbf; x40; xa3; x9e; x81; xf3; xd7; xfb;
   x7c; xe3; x39; x82; x9b; x2f; xff; x87; x34; x8e; x43; x44; xc4; xde; xe9; xcb;
   x54; x7b; x94; x32; xa6; xc2; x23; x3d; xee; x4c; x95; x0b; x42; xfa; xc3; x4e;
   x08; x2e; xa1; x66; x28; xd9; x24; xb2; x76; x5b; xa2; x49; x6d; x8b; xd1; x25;
   x72; xf8; xf6; x64; x86; x68; x98; x16; xd4; xa4; x5c; xcc; x5d; x65; xb6; x92;
   x6c; x70; x48; x50; xfd; xed; xb9; xda; x5e; x15; x46; x57; xa7; x8d; x9d; x84;
   x90; xd8; xab; x00; x8c; xbc; xd3; x0a; xf7; xe4; x58; x05; xb8; xb3; x45; x06;
   xd0; x2c; x1e; x8f; xca; x3f; x0f; x02; xc1; xaf; xbd; x03; x01; x13; x8a; x6b;
   x3a; x91; x11; x41; x4f; x67; xdc; xea; x97; xf2; xcf; xce; xf0; xb4; xe6; x73;
   x96; xac; x74; x22; xe7; xad; x35; x85; xe2; xf9; x37; xe8; x1c; x75; xdf; x6e;
   x47; xf1; x1a; x71; x1d; x29; xc5; x89; x6f; xb7; x62; x0e; xaa; x18; xbe; x1b;
   xfc; x56; x3e; x4b; xc6; xd2; x79; x20; x9a; xdb; xc0; xfe; x78; xcd; x5a; xf4;
   x1f; xdd; xa8; x33; x88; x07; xc7; x31; xb1; x12; x10; x59; x27; x80; xec; x5f;
   x60; x51; x7f; xa9; x19; xb5; x4a; x0d; x2d; xe5; x7a; x9f; x93; xc9; x9c; xef;
   xa0; xe0; x3b; x4d; xae; x2a; xf5; xb0; xc8; xeb; xbb; x3c; x83; x53; x99; x61;
   x17; x2b; x04; x7e; xba; x77; xd6; x26; xe1; x69; x14; x63; x55; x21; x0c; x7d ].

Definition sub_byte (b : byte) : byte := nth (Byte.to_nat b) SBOX x00.
Definition inv_sub_byte (b : byte) : byte := nth (Byte.to_nat b) INV_SBOX x00.

(** Multiplication by x in GF(2^8), modulo x^8 + x^4 + x^3 + x + 1. *)
Definition xtime (b : byte) : byte :=
  let n := Byte.to_N b in
  byte_of_N (N.lxor (N.shiftl n 1) (if (n <? 0x80)%N then 0 else 0x11b)).

Definition gmul2 (b : byte) : byte := xtime b.
Definition gmul3 (b : byte) : byte := xor_byte (xtime b) b.
Definition gmul9 (b : byte) : byte := xor_byte (xtime (xtime (xtime b))) b.
Definition gmul11 (b : byte) : byte :=
  xor_byte (xtime (xtime (xtime b))) (xor_byte (xtime b) b).
Definition gmul13 (b : byte) : byte :=
  xor_byte (xtime (xtime (xtime b))) (xor_byte (xtime (xtime b)) b).
Definition gmul14 (b : byte) : byte :=
  xor_byte (xtime (xtime (xtime b))) (xor_byte (xtime (xtime b)) (xtime b)).

Definition xor4 (a b c d : byte) : byte := xor_byte a (xor_byte b (xor_byte c d)).

(** The state is the block itself: sixteen bytes, column after column. *)
Definition sub_bytes (s : bytes) : bytes := map sub_byte s.
Definition inv_sub_bytes (s : bytes) : bytes := map inv_sub_byte s.

Definition shift_rows (s : bytes) : bytes :=
  match s with
  | [s0; s1; s2; s3; s4; s5; s6; s7; s8; s9; s10; s11; s12; s13; s14; s15] =>
      [s0; s5; s10; s15; s4; s9; s14; s3; s8; s13; s2; s7; s12; s1; s6; s11]
  | _ => s
  end.

Definition inv_shift_rows (s : bytes) : bytes :=
  match s with
  | [s0; s1; s2; s3; s4; s5; s6; s7; s8; s9; s10; s11; s12; s13; s14; s15] =>
      [s0; s13; s10; s7; s4; s1; s14; s11; s8; s5; s2; s15; s12; s9; s6; s3]
  | _ => s
  end.

Fixpoint mix_columns (s : bytes) : bytes :=
  match s with
  | a0 :: a1 :: a2 :: a3 :: rest =>
      xor4 (gmul2 a0) (gmul3 a1) a2 a3
      :: xor4 a0 (gmul2 a1) (gmul3 a2) a3
      :: xor4 a0 a1 (gmul2 a2) (gmul3 a3)
      :: xor4 (gmul3 a0) a1 a2 (gmul2 a3)
      :: mix_columns rest
  | _ => s
  end.

Fixpoint inv_mix_columns (s : bytes) : bytes :=
  match s with
  | a0 :: a1 :: a2 :: a3 :: rest =>
      xor4 (gmul14 a0) (gmul11 a1) (gmul13 a2) (gmul9 a3)
      :: xor4 (gmul9 a0) (gmul14 a1) (gmul11 a2) (gmul13 a3)
      :: xor4 (gmul13 a0) (gmul9 a1) (gmul14 a2) (gmul11 a3)
      :: xor4 (gmul11 a0) (gmul13 a1) (gmul9 a2) (gmul14 a3)
      :: inv_mix_columns rest
  | _ => s
  end.

Definition add_round_key (rk s : bytes) : bytes := xor_bytes s rk.

(** Key expansion: [w] is the list of the words made so far, [i] their
    number, [rcon] the round constant of the next multiple of [Nk]. *)
Definition rot_word (w : bytes) : bytes :=
  match w with
  | a :: rest => rest ++ [a]
  | [] => []
  end.

Fixpoint key_expansion_loop (steps Nk i : nat) (rcon : byte) (w : list bytes)
  : list bytes :=
  match steps with
  | O => w
  | S steps' =>
      let temp := nth (i - 1) w [] in
      let prev := nth (i - Nk) w [] in
      if (i mod Nk =? 0)%nat then
        key_expansion_loop steps' Nk (S i) (xtime rcon)
          (w ++ [xor_bytes prev
                   (xor_bytes (sub_bytes (rot_word temp)) [rcon; x00; x00; x00])])
      else if (6 <? Nk)%nat && (i mod Nk =? 4)%nat then
        key_expansion_loop steps' Nk (S i) rcon
          (w ++ [xor_bytes prev (sub_bytes temp)])
      else
        key_expansion_loop steps' Nk (S i) rcon (w ++ [xor_bytes prev temp])
  end.

(** The list [l] cut into [n] pieces of [size] elements. *)
Fixpoint chunks {A : Type} (size n : nat) (l : list A) : list (list A) :=
  match n with
  | O => []
  | S n' => firstn size l :: chunks size n' (skipn size l)
  end.

(** The round keys of a key of 16, 24 or 32 bytes: Nr + 1 blocks, with
    Nr = Nk + 6 rounds. *)
Definition key_expansion (key : bytes) : list bytes :=
  let Nk := (length key / 4)%nat in
  let Nr := (Nk + 6)%nat in
  let w := key_expansion_loop (4 * (Nr + 1) - Nk) Nk Nk x01 (chunks 4 Nk key) in
  chunks 16 (Nr + 1) (concat w).

(** The rounds after the initial key addition; the last one has no
    MixColumns. *)
Fixpoint cipher_rounds (rks : list bytes) (s : bytes) : bytes :=
  match rks with
  | [] => s
  | [rk] => add_round_key rk (shift_rows (sub_bytes s))
  | rk :: rks' =>
      cipher_rounds rks' (add_round_key rk (mix_columns (shift_rows (sub_bytes s))))
  end.

Definition cipher (rks : list bytes) (block : bytes) : bytes :=
  match rks with
  | [] => block
  | rk0 :: rks' => cipher_rounds rks' (add_round_key rk0 block)
  end.

(** The inverse rounds, over the round keys in reverse order. *)
Fixpoint inv_cipher_rounds (rev_rks : list bytes) (s : bytes) : bytes :=
  match rev_rks with
  | [] => s
  | [rk0] => add_round_key rk0 (inv_sub_bytes (inv_shift_rows s))
  | rk :: rest =>
      inv_cipher_rounds rest
        (inv_mix_columns (add_round_key rk (inv_sub_bytes (inv_shift_rows s))))
  end.

Definition inv_cipher (rks : list bytes) (block : bytes) : bytes :=
  match rev rks with
  | [] => block
  | rk_last :: rest => inv_cipher_rounds rest (add_round_key rk_last block)
  end.

Definition block_size : nat := 16.

(** CBC over [nblocks] blocks; [prev] is the previous ciphertext block,
    the IV at the start. *)
Fixpoint cbc_decrypt_loop (rks : list bytes) (nblocks : nat) (prev data : bytes)
  : bytes :=
  match nblocks with
  | O => []
  | S n =>
      let c := firstn block_size data in
      xor_bytes (inv_cipher rks c) prev
        ++ cbc_decrypt_loop rks n c (skipn block_size data)
  end.

Fixpoint cbc_encrypt_loop (rks : list bytes) (nblocks : nat) (prev data : bytes)
  : bytes :=
  match nblocks with
  | O => []
  | S n =>
      let c := cipher rks (xor_bytes (firstn block_size data) prev) in
      c ++ cbc_encrypt_loop rks n c (skipn block_size data)
  end.

(** [AES.new(key, AES.MODE_CBC, iv)]: the cipher object is its round keys
    and its IV. *)
Definition aes_new_cbc (key iv : bytes) : outcome (list bytes * bytes) :=
  let n := length key in
  if negb ((n =? 16)%nat || (n =? 24)%nat || (n =? 32)%nat) then
    Raises (Exn ValueError
              (lit "Incorrect AES key length (" ++ str_of_nat n ++ lit " bytes)"))
  else if negb (length iv =? block_size)%nat then
    raise ValueError "Incorrect IV length (it must be 16 bytes long)"
  else Returns (key_expansion key, iv).

(** [cipher.decrypt(data)] *)
Definition cbc_decrypt (c : list bytes * bytes) (data : bytes) : outcome bytes :=
  if negb (length data mod block_size =? 0)%nat then
    raise ValueError "Data must be padded to 16 byte boundary in CBC mode"
  else Returns (cbc_decrypt_loop (fst c) (length data / block_size) (snd c) data).

(** [cipher.encrypt(data)], the write side of the same cipher object. *)
Definition cbc_encrypt (c : list bytes * bytes) (data : bytes) : outcome bytes :=
  if negb (length data mod block_size =? 0)%nat then
    raise ValueError "Data must be padded to 16 byte boundary in CBC mode"
  else Returns (cbc_encrypt_loop (fst c) (length data / block_size) (snd c) data).

(** Bytes written as hexadecimal digits, for test vectors. *)
Fixpoint unhex (l : list ascii) : bytes :=
  match l with
  | h :: l0 :: rest =>
      let digit (a : ascii) : N :=
        let n := N_of_ascii a in
        if (n <? 58)%N then (n - 48)%N else (n - 87)%N in
      byte_of_N (16 * digit h + digit l0) :: unhex rest
  | _ => []
  end.

Definition hex (s : string) : bytes := unhex (list_ascii_of_string s).

(** ** The program *)

(** [str(z)] of an integer. *)
Definition str_of_Z (z : Z) : str :=
  if (z <? 0)%Z then lit "-" ++ str_of_nat (Z.to_nat (- z))
  else str_of_nat (Z.to_nat z).

(** The value of [APP_KEY_STR]: [os.environ.get] gives [None] or a string,
    and [not app_key_str] holds for [None] and for the empty string. *)
Definition key_missing (app_key_str : option str) : bool :=
  match app_key_str with
  | None | Some [] => true
  | Some (_ :: _) => false
  end.

Definition key_text (app_key_str : option str) : str :=
  match app_key_str with
  | Some k => k
  | None => []
  end.

(** A response of the upstream API as the handlers read it: its status
    code, reason phrase and URL, and what [response.json()] gives. *)
Record http_response : Type := HttpResponse {
  status_code : Z;
  reason : str;
  url : str;
  json_of_body : outcome pyval
}.

(** What a handler hands to Flask: a status and either a JSON document or
    a text.  The serialisation of the document is the library's. *)
Inductive body : Type :=
| JsonBody (v : pyval)
| TextBody (s : str).

Record flask_response : Type := FlaskResponse {
  resp_status : Z;
  resp_body : body
}.

Section App.

(** [str(e)]: the text of an exception, which the libraries decide. *)
Variable exn_str : exn -> str.

(** [json.loads] on the decoded payload. *)
Variable json_loads : bytes -> outcome pyval.

(** [requests.get(url)] *)
Variable requests_get : str -> outcome http_response.

(** Lines 48-60: pad the envelope, decode it, load the JSON payload, and
    decode its [iv] and [value]. *)
Definition pad_envelope (encrypted_data_str : str) : str :=
  let missing_padding := (length encrypted_data_str mod 4)%nat in
  if negb (missing_padding =? 0)%nat
  then encrypted_data_str ++ repeat EQUALS (4 - missing_padding)
  else encrypted_data_str.

Definition decode_envelope (encrypted_data_str : str) : outcome (bytes * bytes) :=
  let encrypted_data_str := pad_envelope encrypted_data_str in
  decoded_payload <- b64decode encrypted_data_str ;;
  json_data <- json_loads decoded_payload ;;
  iv_item <- subscript json_data (lit "iv") ;;
  iv_bytes <- b64decode_val iv_item ;;
  value_item <- subscript json_data (lit "value") ;;
  encrypted_value_bytes <- b64decode_val value_item ;;
  Returns (iv_bytes, encrypted_value_bytes).

(** Lines 69-104: AES-256-CBC, unpadding, UTF-8 decoding and the cleaning
    of the Laravel string format. *)
Definition decrypt_value (app_key_str : str) (iv_bytes encrypted_value_bytes : bytes)
  : outcome str :=
  app_key_bytes <- utf8_encode app_key_str ;;
  cipher <- aes_new_cbc app_key_bytes iv_bytes ;;
  decrypted_bytes <- cbc_decrypt cipher encrypted_value_bytes ;;
  unpadded_bytes <- unpad decrypted_bytes block_size ;;
  plaintext <- utf8_decode unpadded_bytes ;;
  Returns (unwrap plaintext).

Definition decrypt_laravel_string_unsafe
           (encrypted_data_str : str) (app_key_str : option str) : outcome str :=
  if key_missing app_key_str then
    Returns (lit "Decryption key (APP_KEY_STR) is missing.")
  else
    match decode_envelope encrypted_data_str with
    | Raises e =>
        if except_matches [JSONDecodeError; BinasciiError; KeyError] e
        then Returns (lit "An error occurred during initial decoding: " ++ exn_str e)
        else Raises e
    | Returns (iv_bytes, encrypted_value_bytes) =>
        match decrypt_value (key_text app_key_str) iv_bytes encrypted_value_bytes with
        | Returns plaintext => Returns plaintext
        | Raises e =>
            if except_matches [Exception] e
            then Returns (lit "An error occurred during decryption: " ++ exn_str e)
            else Raises e
        end
    end.

(** The routes [/] and [/greet/<name>]. *)
Definition home : flask_response :=
  FlaskResponse 200
    (TextBody (lit "<h1>Welcome to a Simple Flask API!</h1><p>Use /greet/&lt;name&gt;, /data, /movies/&lt;id&gt;, or /search</p>")).

Definition greet (name : str) : flask_response :=
  FlaskResponse 200 (TextBody (lit "Hello, " ++ name ++ lit "! Nice to meet you.")).

(** The route [/data]. *)
Definition get_data : flask_response :=
  FlaskResponse 200
    (JsonBody (PDict [(lit "message", PStr (lit "This is some sample data from the API."));
                      (lit "version", PStr (lit "1.0"));
                      (lit "items", PList [PStr (lit "item1"); PStr (lit "item2");
                                           PStr (lit "item3")])])).

Definition encrypted_url_keys : list str :=
  [lit "vstream"; lit "vdownload2"; lit "vbackup"; lit "freemium";
   lit "download"; lit "stream"; lit "astream"].

Definition PREFERRED_MOVIE_KEY_ORDER : list str :=
  [lit "id"; lit "movietitle"; lit "movieyear"; lit "moviegenres"; lit "language";
   lit "imdb"; lit "quality"; lit "review"; lit "image";
   lit "vstream"; lit "stream"; lit "astream"; lit "freemium"; lit "download";
   lit "vdownload2"; lit "vbackup";
   lit "premium"; lit "downloadcount"; lit "viewcount"; lit "filesize"].

(** Lines 183-190: every name of [field_keys] gets the decrypted string
    when the record holds a string under it, and [None] otherwise. *)
Fixpoint decrypt_fields (app_key_str : option str) (field_keys : list str)
         (movie_data : dict pyval) : outcome (dict pyval) :=
  match field_keys with
  | [] => Returns movie_data
  | key :: rest =>
      match dict_get key movie_data with
      | Some (PStr s) =>
          decrypted_url <- decrypt_laravel_string_unsafe s app_key_str ;;
          decrypt_fields app_key_str rest
            (dict_set key (PStr decrypted_url) movie_data)
      | _ => decrypt_fields app_key_str rest (dict_set key PNone movie_data)
      end
  end.

(** Lines 204-206: the names of [order] that the record has, into [ordered]. *)
Fixpoint add_preferred (order : list str) (movie_data ordered : dict pyval)
  : dict pyval :=
  match order with
  | [] => ordered
  | key :: rest =>
      add_preferred rest movie_data
        (match dict_get key movie_data with
         | Some v => dict_set key v ordered
         | None => ordered
         end)
  end.

(** Lines 209-211: the keys of the record that [ordered] lacks, in the
    record's order. *)
Fixpoint add_remaining (ks : list str) (movie_data ordered : dict pyval)
  : dict pyval :=
  match ks with
  | [] => ordered
  | key :: rest =>
      add_remaining rest movie_data
        (if dict_mem key ordered then ordered
         else match dict_get key movie_data with
              | Some v => dict_set key v ordered
              | None => ordered
              end)
  end.

(** Lines 201-215. *)
Definition reorder (order : list str) (movie_data : dict pyval) : dict pyval :=
  add_remaining (keys movie_data) movie_data (add_preferred order movie_data []).

(** Lines 178-215 on the decoded record: the normalisation. *)
Definition normalize (app_key_str : option str) (movie_data : pyval)
  : outcome (dict pyval) :=
  match movie_data with
  | PDict d =>
      d' <- decrypt_fields app_key_str encrypted_url_keys d ;;
      Returns (reorder PREFERRED_MOVIE_KEY_ORDER d')
  | PList _ =>
      (* [key in movie_data] is a membership test; reading or writing
         [movie_data[key]] then fails *)
      raise TypeError "list indices must be integers or slices, not str"
  | PStr s =>
      (* [key in movie_data] is a substring test *)
      match index_of (lit "vstream") s with
      | Some _ => raise TypeError "string indices must be integers, not 'str'"
      | None => raise TypeError "'str' object does not support item assignment"
      end
  | v =>
      Raises (Exn TypeError
                (lit "argument of type '" ++ lit (type_name v)
                   ++ lit "' is not iterable"))
  end.

(** [jsonify({"error": msg})] with a status. *)
Definition error_response (status : Z) (msg : str) : flask_response :=
  FlaskResponse status (JsonBody (PDict [(lit "error", PStr msg)])).

(** [response.raise_for_status()] *)
Definition raise_for_status (response : http_response) : outcome unit :=
  let code := status_code response in
  if (400 <=? code)%Z && (code <? 500)%Z then
    Raises (Exn HTTPError
              (str_of_Z code ++ lit " Client Error: " ++ reason response
                 ++ lit " for url: " ++ url response))
  else if (500 <=? code)%Z && (code <? 600)%Z then
    Raises (Exn HTTPError
              (str_of_Z code ++ lit " Server Error: " ++ reason response
                 ++ lit " for url: " ++ url response))
  else Returns tt.

(** The [except] clauses shared by the two handlers that call the upstream
    API, in the order of the source.  [response] is the local variable: it
    is bound only once [requests.get] has returned. *)
Definition handle_request_errors (response : option http_response) (e : exn)
  : outcome flask_response :=
  if except_matches [HTTPError] e then
    match response with
    | Some r =>
        Returns (FlaskResponse (status_code r)
                   (JsonBody (PDict [(lit "error",
                                      PStr (lit "HTTP error occurred: " ++ exn_str e));
                                     (lit "status_code", PInt (status_code r))])))
    | None => raise UnboundLocalError "response"
    end
  else if except_matches [ConnectionError] e then
    Returns (error_response 503 (lit "Connection error occurred: " ++ exn_str e))
  else if except_matches [Timeout] e then
    Returns (error_response 408 (lit "Timeout error occurred: " ++ exn_str e))
  else if except_matches [RequestException] e then
    Returns (error_response 500 (lit "An unexpected error occurred: " ++ exn_str e))
  else if except_matches [Exception] e then
    Returns (error_response 500 (lit "An unexpected error occurred: " ++ exn_str e))
  else Raises e.

(** The route [/movies/<int:movie_id>]. *)
Definition get_movie_details (app_key_str : option str) (movie_id : nat)
  : outcome flask_response :=
  if key_missing app_key_str then
    Returns (error_response 500
               (lit "Server configuration error: Decryption key is missing."))
  else
    let external_api_url :=
      lit "https://api.msubmovie.com/api/v1/mobile/get/single/movie/"
        ++ str_of_nat movie_id in
    match requests_get external_api_url with
    | Raises e => handle_request_errors None e
    | Returns response =>
        match (_ <- raise_for_status response ;;
               movie_data <- json_of_body response ;;
               final_response_data <- normalize app_key_str movie_data ;;
               Returns (FlaskResponse 200 (JsonBody (PDict final_response_data))))
        with
        | Returns r => Returns r
        | Raises e => handle_request_errors (Some response) e
        end
    end.

(** The route [/search]: [search_query] and [page_number] are what
    [request.args.get] gave, defaults included. *)
Definition search_movies (search_query : str) (page_number : Z)
  : outcome flask_response :=
  let external_search_api_url :=
    lit "https://api.msubmovie.com/api/get/search/movies?query=" ++ search_query
      ++ lit "&page=" ++ str_of_Z page_number in
  match requests_get external_search_api_url with
  | Raises e => handle_request_errors None e
  | Returns response =>
      match (_ <- raise_for_status response ;;
             v <- json_of_body response ;;
             Returns (FlaskResponse 200 (JsonBody v)))
      with
      | Returns r => Returns r
      | Raises e => handle_request_errors (Some response) e
      end
  end.

End App.

(** Whether a list of names has no repetition. *)
Fixpoint nodupb (l : list str) : bool :=
  match l with
  | [] => true
  | k :: l' => negb (existsb (str_eqb k) l') && nodupb l'
  end.

(** The record and the order of the example in the specification. *)
Definition example_order : list str := [lit "id"; lit "stream"].
Definition example_record : dict pyval :=
  [(lit "download", PStr (lit "x")); (lit "id", PInt 1); (lit "stream", PStr (lit "y"))].

(** ** Instances for the concrete runs

    The theorems below hold for every [exn_str], [json_loads] and
    [requests_get].  To run the program on concrete inputs these stand in
    for the libraries: the text of an exception is its argument (quoted for
    a [KeyError], as Python prints a missing key), the JSON reader covers
    objects, arrays, strings with the short escapes, integers and the three
    literals, and the upstream API answers 200 with a given document. *)

Definition exn_text (e : exn) : str :=
  match exn_cls e with
  | KeyError => lit "'" ++ exn_arg e ++ lit "'"
  | _ => exn_arg e
  end.

Definition is_ws (c : char) : bool :=
  (c =? 32)%N || (c =? 9)%N || (c =? 10)%N || (c =? 13)%N.

Fixpoint skip_ws (s : str) : str :=
  match s with
  | c :: s' => if is_ws c then skip_ws s' else s
  | [] => []
  end.

(** The character a short escape stands for. *)
Definition unescape (c : char) : option char :=
  if (c =? 34)%N || (c =? 92)%N || (c =? 47)%N then Some c
  else if (c =? 98)%N then Some 8%N
  else if (c =? 102)%N then Some 12%N
  else if (c =? 110)%N then Some 10%N
  else if (c =? 114)%N then Some 13%N
  else if (c =? 116)%N then Some 9%N
  else None.

(** The content of a string, read from after its opening quote, and what
    follows its closing quote. *)
Fixpoint scan_string (s : str) : option (str * str) :=
  match s with
  | [] => None
  | c :: s' =>
      if (c =? 34)%N then Some ([], s')
      else if (c =? 92)%N then
        match s' with
        | e :: s'' =>
            match unescape e, scan_string s'' with
            | Some x, Some (t, r) => Some (x :: t, r)
            | _, _ => None
            end
        | [] => None
        end
      else if (c <? 32)%N then None
      else match scan_string s' with
           | Some (t, r) => Some (c :: t, r)
           | None => None
           end
  end.

(** Decimal digits at the front of [s], as a number, and the rest. *)
Fixpoint scan_digits (acc : Z) (s : str) : Z * str :=
  match s with
  | c :: s' =>
      if is_digit c then scan_digits (10 * acc + Z.of_N (c - 48)) s'
      else (acc, s)
  | [] => (acc, [])
  end.

Definition scan_int (s : str) : option (pyval * str) :=
  let (neg, s1) :=
    match s with
    | c :: s' => if (c =? 45)%N then (true, s') else (false, s)
    | [] => (false, s)
    end in
  match s1 with
  | c :: s2 =>
      if is_digit c then
        let (n, r) := if (c =? 48)%N then (0%Z, s2) else scan_digits 0 s1 in
        match r with
        | x :: _ =>
            if (x =? 46)%N || (x =? 101)%N || (x =? 69)%N then None
            else Some (PInt (if neg then - n else n), r)
        | [] => Some (PInt (if neg then - n else n), r)
        end
      else None
  | [] => None
  end.

Fixpoint read_value (fuel : nat) (s : str) : option (pyval * str) :=
  match fuel with
  | O => None
  | S fuel' =>
      match s with
      | [] => None
      | c :: s' =>
          if (c =? 34)%N then
            match scan_string s' with
            | Some (t, r) => Some (PStr t, r)
            | None => None
            end
          else if (c =? 123)%N then
            match skip_ws s' with
            | x :: r => if (x =? 125)%N then Some (PDict [], r)
                        else read_members fuel' [] (x :: r)
            | [] => None
            end
          else if (c =? 91)%N then
            match skip_ws s' with
            | x :: r => if (x =? 93)%N then Some (PList [], r)
                        else read_elements fuel' [] (x :: r)
            | [] => None
            end
          else if startswith s (lit "null") then Some (PNone, skipn 4 s)
          else if startswith s (lit "true") then Some (PBool true, skipn 4 s)
          else if startswith s (lit "false") then Some (PBool false, skipn 5 s)
          else scan_int s
      end
  end
with read_members (fuel : nat) (acc : dict pyval) (s : str) : option (pyval * str) :=
  match fuel with
  | O => None
  | S fuel' =>
      match s with
      | q :: s1 =>
          if (q =? 34)%N then
            match scan_string s1 with
            | Some (k, s2) =>
                match skip_ws s2 with
                | colon :: s3 =>
                    if (colon =? 58)%N then
                      match read_value fuel' (skip_ws s3) with
                      | Some (v, s4) =>
                          match skip_ws s4 with
                          | x :: s5 =>
                              if (x =? 125)%N then Some (PDict (dict_set k v acc), s5)
                              else if (x =? 44)%N
                              then read_members fuel' (dict_set k v acc) (skip_ws s5)
                              else None
                          | [] => None
                          end
                      | None => None
                      end
                    else None
                | [] => None
                end
            | None => None
            end
          else None
      | [] => None
      end
  end
with read_elements (fuel : nat) (acc : list pyval) (s : str) : option (pyval * str) :=
  match fuel with
  | O => None
  | S fuel' =>
      match read_value fuel' s with
      | Some (v, s1) =>
          match skip_ws s1 with
          | x :: s2 =>
              if (x =? 93)%N then Some (PList (acc ++ [v]), s2)
              else if (x =? 44)%N then read_elements fuel' (acc ++ [v]) (skip_ws s2)
              else None
          | [] => None
          end
      | None => None
      end
  end.

Definition json_loads_ref (data : bytes) : outcome pyval :=
  match utf8_decode_opt data with
  | None => raise UnicodeDecodeError "utf-8"
  | Some s =>
      match read_value (2 * length s + 2) (skip_ws s) with
      | Some (v, r) =>
          match skip_ws r with
          | [] => Returns v
          | _ :: _ => raise JSONDecodeError "Extra data"
          end
      | None => raise JSONDecodeError "Expecting value"
      end
  end.

(** An upstream API that answers every request with status 200 and the
    document [v]. *)
Definition upstream_ok (v : pyval) (u : str) : outcome http_response :=
  Returns (HttpResponse 200 (lit "OK") u (Returns v)).

(** ** Auxiliary definitions of the proofs *)

(** All 256 bytes, for properties checked byte by byte. *)
Definition all_bytes : list byte := map (fun n => byte_of_N (N.of_nat n)) (seq 0 256).

(** [s.rstrip(c)] for one character [c]. *)
Fixpoint lstrip (c : char) (s : str) : str :=
  match s with
  | x :: s' => if N.eqb x c then lstrip c s' else s
  | [] => []
  end.

Definition rstrip (c : char) (s : str) : str := rev (lstrip c (rev s)).

(** What makes [c] the character of the value [v]: it is no pad
    character, the decoding table maps it back to [v], and it is ASCII. *)
Definition char_of_value (c : byte) (v : N) : bool :=
  negb (Byte.eqb c BASE64_PAD)
  && match table_a2b_base64 c with
     | Some v' => N.eqb v' v
     | None => false
     end
  && (Byte.to_N c <? 128)%N.

(** Round keys of one block each. *)
Definition block_keys (rks : list bytes) : Prop :=
  Forall (fun rk => length rk = block_size) rks.

(** ** The side that builds an envelope

    The repository only reads envelopes.  The write side is given here as
    the specification words it: UTF-8 encode, PKCS7-pad, AES-CBC encrypt,
    Base64-encode the IV and the value, wrap both in a JSON object,
    Base64-encode the JSON. *)

Definition spec_encrypt_value (app_key_str : str) (iv : bytes) (plaintext : str)
  : outcome bytes :=
  key_bytes <- utf8_encode app_key_str ;;
  data <- utf8_encode plaintext ;;
  cipher <- aes_new_cbc key_bytes iv ;;
  cbc_encrypt cipher (pad data block_size).

(** The JSON text with the two members, written out. *)
Definition spec_json_wrap (iv ciphertext : bytes) : bytes :=
  blit "{" ++ [byte_of_N 34] ++ blit "iv" ++ [byte_of_N 34] ++ blit ":"
    ++ [byte_of_N 34] ++ b2a_base64 iv ++ [byte_of_N 34] ++ blit ","
    ++ [byte_of_N 34] ++ blit "value" ++ [byte_of_N 34] ++ blit ":"
    ++ [byte_of_N 34] ++ b2a_base64 ciphertext ++ [byte_of_N 34] ++ blit "}".

Definition spec_envelope (app_key_str : str) (iv : bytes) (plaintext : str)
  : outcome str :=
  ciphertext <- spec_encrypt_value app_key_str iv plaintext ;;
  Returns (b64encode (spec_json_wrap iv ciphertext)).

(** What the reader needs of the wrapping, whatever its layout: the JSON
    library loads the payload as an object that holds the Base64 text of
    the IV under [iv] and that of the ciphertext under [value]. *)
Definition json_wraps (json_loads : bytes -> outcome pyval) (payload : bytes)
           (iv ciphertext : bytes) : Prop :=
  exists d : dict pyval,
    json_loads payload = Returns (PDict d)
    /\ dict_get (lit "iv") d = Some (PStr (b64encode iv))
    /\ dict_get (lit "value") d = Some (PStr (b64encode ciphertext)).

(** A key of 32 characters, an IV, and a quoted plaintext, for the runs. *)
Definition sample_key : str := lit "0123456789abcdef0123456789abcdef".
Definition sample_iv : bytes := hex "000102030405060708090a0b0c0d0e0f".
Definition sample_url : str := lit "https://cdn.example.com/movie.mp4".
Definition sample_quoted : str := [DQUOTE] ++ sample_url ++ [DQUOTE].

(** The envelope the write side builds for [sample_quoted] under
    [sample_key] and [sample_iv]. *)
Definition sample_envelope : str :=
  lit "eyJpdiI6IkFBRUNBd1FGQmdjSUNRb0xEQTBPRHc9PSIsInZhbHVlIjoiRXg1VVZEQ0JDVUNRRldtaXhZazRrM0xmSEphUklLa2RVZ0M5UWlGT3pia3VnTlY2VTNrMVJQVGtXUkl3VjBVZyJ9".

(** A record of the upstream API: one encrypted field, one field of the
    seven that holds a number, five of them absent, two plain fields. *)
Definition sample_record : dict pyval :=
  [(lit "title", PStr (lit "Heat"));
   (lit "stream", PStr sample_envelope);
   (lit "vstream", PInt 5);
   (lit "id", PInt 7)].

Definition sample_normalized : dict pyval :=
  [(lit "id", PInt 7);
   (lit "vstream", PNone);
   (lit "stream", PStr sample_url);
   (lit "astream", PNone);
   (lit "freemium", PNone);
   (lit "download", PNone);
   (lit "vdownload2", PNone);
   (lit "vbackup", PNone);
   (lit "title", PStr (lit "Heat"))].

(** The envelope whose payload is the JSON text of an empty array. *)
Definition array_envelope : str := lit "W10=".

(** The exception a list raises when indexed by a string. *)
Definition list_index_error : exn :=
  Exn TypeError (lit "list indices must be integers or slices, not str").

(** The ciphertext of [sample_quoted] under [sample_key] and [sample_iv]. *)
Definition sample_ciphertext : bytes :=
  hex "131e545430810940901569a2c589389372df1c969120a91d5200bd42214ecdb92e80d57a53793544f4e4591230574520".

(** An upstream API whose every request fails with [e]. *)
Definition upstream_fails (e : exn) (u : str) : outcome http_response := Raises e.

(** An upstream API that answers every request with the status [code],
    the reason [why] and the document [v]. *)
Definition upstream_status (code : Z) (why : str) (v : pyval) (u : str)
  : outcome http_response :=
  Returns (HttpResponse code why u (Returns v)).

(** The URLs the two handlers request. *)
Definition movie_url (movie_id : nat) : str :=
  lit "https://api.msubmovie.com/api/v1/mobile/get/single/movie/"
    ++ str_of_nat movie_id.

Definition search_url (search_query : str) (page_number : Z) : str :=
  lit "https://api.msubmovie.com/api/get/search/movies?query=" ++ search_query
    ++ lit "&page=" ++ str_of_Z page_number.

(** An upstream API that answers every request with status 200 and a body
    that is no JSON document. *)
Definition upstream_garbled (u : str) : outcome http_response :=
  Returns (HttpResponse 200 (lit "OK") u
             (raise RequestsJSONDecodeError "Expecting value")).

(** * Properties *)

(** ** Strings *)

Lemma str_eqb_refl (a : str) : str_eqb a a = true.
Proof.
  induction a as [|x a IH]; simpl; [reflexivity|].
  now rewrite N.eqb_refl, IH.
Qed.

Lemma str_eqb_eq (a b : str) : str_eqb a b = true <-> a = b.
Proof.
  split; [|intros ->; apply str_eqb_refl].
  revert b; induction a as [|x a IH]; intros [|y b]; simpl; try easy.
  intros H. apply andb_true_iff in H as [H1 H2].
  apply N.eqb_eq in H1. apply IH in H2. now subst.
Qed.

Lemma startswith_app (p s : str) : startswith (p ++ s) p = true.
Proof.
  induction p as [|x p IH]; simpl; [reflexivity|].
  now rewrite N.eqb_refl, IH.
Qed.

Lemma startswith_spec (s p : str) :
  startswith s p = true <-> exists t, s = p ++ t.
Proof.
  split.
  - revert s; induction p as [|x p IH]; intros s H.
    + now exists s.
    + destruct s as [|y s]; simpl in H; [discriminate|].
      apply andb_true_iff in H as [H1 H2].
      apply N.eqb_eq in H1. subst y.
      destruct (IH _ H2) as [t ->]. now exists t.
  - intros [t ->]. apply startswith_app.
Qed.

Lemma endswith_app (s p : str) : endswith (s ++ p) p = true.
Proof.
  unfold endswith. rewrite length_app.
  apply andb_true_iff; split; [apply Nat.leb_le; lia|].
  replace (length s + length p - length p)%nat with (length s + 0)%nat by lia.
  rewrite skipn_app, skipn_all2 by lia.
  replace (length s + 0 - length s)%nat with 0%nat by lia.
  simpl. apply str_eqb_refl.
Qed.

Lemma endswith_spec (s p : str) :
  endswith s p = true <-> exists t, s = t ++ p.
Proof.
  split.
  - unfold endswith. intros H. apply andb_true_iff in H as [_ H].
    apply str_eqb_eq in H.
    exists (firstn (length s - length p) s).
    rewrite <- (firstn_skipn (length s - length p) s) at 1. now rewrite H.
  - intros [t ->]. apply endswith_app.
Qed.

Lemma index_of_char_none (c : char) (u : str) :
  ~ In c u -> index_of [c] u = None.
Proof.
  induction u as [|a u IH]; simpl; intros H; [reflexivity|].
  destruct (N.eqb c a) eqn:E.
  - apply N.eqb_eq in E. subst. exfalso. apply H. now left.
  - simpl. rewrite IH; [reflexivity|]. intros ?. apply H. now right.
Qed.

Lemma index_of_char_first (c : char) (u r : str) :
  ~ In c u -> index_of [c] (u ++ c :: r) = Some (length u).
Proof.
  induction u as [|a u IH]; simpl; intros H.
  - now rewrite N.eqb_refl.
  - destruct (N.eqb c a) eqn:E.
    + apply N.eqb_eq in E. subst. exfalso. apply H. now left.
    + simpl. rewrite IH; [reflexivity|]. intros ?. apply H. now right.
Qed.

Lemma rindex_of_char_none (c : char) (u : str) :
  ~ In c u -> rindex_of [c] u = None.
Proof.
  induction u as [|a u IH]; simpl; intros H; [reflexivity|].
  rewrite IH by (intros ?; apply H; now right).
  destruct (N.eqb c a) eqn:E; [|reflexivity].
  apply N.eqb_eq in E. subst. exfalso. apply H. now left.
Qed.

Lemma rindex_of_char_last (c : char) (r t : str) :
  ~ In c t -> rindex_of [c] (r ++ c :: t) = Some (length r).
Proof.
  intros H. induction r as [|a r IH]; simpl.
  - rewrite rindex_of_char_none by assumption. now rewrite N.eqb_refl.
  - now rewrite IH.
Qed.

Lemma index_of_char_some (c : char) (s : str) (i : nat) :
  index_of [c] s = Some i ->
  exists u r, s = u ++ c :: r /\ ~ In c u /\ i = length u.
Proof.
  revert i; induction s as [|a s IH]; simpl; intros i H; [discriminate|].
  destruct (N.eqb c a) eqn:E; simpl in H.
  - apply N.eqb_eq in E. subst a. injection H as <-.
    exists [], s. now repeat split.
  - destruct (index_of [c] s) as [j|] eqn:Ej; [|discriminate].
    injection H as <-. destruct (IH j eq_refl) as (u & r & -> & Hu & ->).
    exists (a :: u), r. repeat split.
    intros [->|Hin]; [|now apply Hu]. now rewrite N.eqb_refl in E.
Qed.

Lemma rindex_of_char_some (c : char) (s : str) (i : nat) :
  rindex_of [c] s = Some i ->
  exists r t, s = r ++ c :: t /\ ~ In c t /\ i = length r.
Proof.
  revert i; induction s as [|a s IH]; simpl; intros i H; [discriminate|].
  destruct (rindex_of [c] s) as [j|] eqn:Ej.
  - injection H as <-. destruct (IH j eq_refl) as (r & t & -> & Ht & ->).
    exists (a :: r), t. now repeat split.
  - destruct (N.eqb c a) eqn:E; simpl in H; [|discriminate].
    apply N.eqb_eq in E. subst a. injection H as <-.
    exists [], s. repeat split.
    clear IH. intros Hin. revert Ej Hin.
    induction s as [|b s IHs]; simpl; [easy|].
    destruct (rindex_of [c] s); [discriminate|].
    destruct (N.eqb c b) eqn:Eb; simpl; [discriminate|].
    intros _ [->|Hin]; [now rewrite N.eqb_refl in Eb|]. now apply IHs.
Qed.

(** [find] and [rfind] of one character, as the unwrapper calls them. *)
Lemma str_find_char (c : char) (s : str) (a : nat) :
  (a <= length s)%nat ->
  str_find [c] s (Z.of_nat a) (len s) =
  match index_of [c] (skipn a s) with
  | Some i => Z.of_nat (a + i)
  | None => (-1)%Z
  end.
Proof.
  intros Ha. unfold str_find, find_start, adjust_index, len.
  destruct (Z.ltb_spec (Z.of_nat a) 0); [lia|].
  destruct (Z.ltb_spec (Z.of_nat (length s)) 0); [lia|].
  rewrite Z.min_id, !Nat2Z.id.
  destruct (Z.ltb_spec (Z.of_nat (length s) - Z.of_nat a) (Z.of_nat (length [c]))) as [Hlt|Hge].
  - simpl in Hlt. rewrite skipn_all2 by lia. reflexivity.
  - replace (Z.to_nat (Z.of_nat (length s) - Z.of_nat a)) with (length (skipn a s))
      by (rewrite length_skipn; lia).
    rewrite firstn_all. destruct (index_of [c] (skipn a s)); [lia|reflexivity].
Qed.

Lemma str_rfind_char (c : char) (s : str) :
  str_rfind [c] s 0 (len s - 1) =
  match rindex_of [c] (removelast s) with
  | Some i => Z.of_nat i
  | None => (-1)%Z
  end.
Proof.
  unfold str_rfind, find_start, adjust_index, len. simpl (0 <? 0)%Z. cbv iota.
  rewrite removelast_firstn_len.
  destruct s as [|x s]; [reflexivity|].
  simpl length. simpl Init.Nat.pred.
  destruct (Z.ltb_spec (Z.of_nat (S (length s)) - 1) 0) as [Hn|Hn]; [lia|].
  rewrite Z.min_l by lia.
  rewrite Z.sub_0_r, skipn_O, Nat2Z.id.
  replace (Z.to_nat (Z.of_nat (S (length s)) - 1)) with (length s) by lia.
  match goal with
  | |- context [if (?a <? ?b)%Z then _ else _] => destruct (Z.ltb_spec a b) as [Hlt|Hge]
  end.
  - assert (length s = 0%nat) as Hs by lia. now rewrite Hs.
  - destruct (rindex_of [c] (firstn (length s) (x :: s)));
      [change (0 <? 0)%Z with false; cbv iota; lia|reflexivity].
Qed.

Lemma py_slice_mid {A : Type} (a m b : list A) :
  py_slice (a ++ m ++ b) (len a) (len a + len m) = m.
Proof.
  unfold py_slice, adjust_index, len.
  destruct (Z.ltb_spec (Z.of_nat (length a)) 0); [lia|].
  destruct (Z.ltb_spec (Z.of_nat (length a) + Z.of_nat (length m)) 0); [lia|].
  rewrite !length_app.
  rewrite !Z.min_l by lia.
  rewrite Nat2Z.id.
  replace (Z.to_nat (Z.of_nat (length a) + Z.of_nat (length m)) - length a)%nat
    with (length m) by lia.
  rewrite skipn_app, skipn_all, Nat.sub_diag, skipn_O. simpl.
  now rewrite firstn_app, firstn_all, Nat.sub_diag, firstn_O, app_nil_r.
Qed.

(** ** The unwrapper *)

Ltac solve_len :=
  unfold len;
  repeat (rewrite ?length_app; cbn [length lit map list_ascii_of_string]);
  lia.

Lemma skipn_app_exact {A : Type} (a b : list A) (n : nat) :
  n = length a -> skipn n (a ++ b) = b.
Proof.
  intros ->. now rewrite skipn_app, skipn_all, Nat.sub_diag.
Qed.

(** The serialized shape as the unwrapper reads it: after [s:], a length
    field without a colon, a colon, anything without a quote, the opening
    quote, the content, the closing quote, and a quote-free rest that ends
    in the semicolon. *)
Lemma strip_php_serialized_shape (u v w t : str) :
  ~ In COLON u -> ~ In DQUOTE v -> ~ In DQUOTE t ->
  strip_php_serialized
    (lit "s:" ++ u ++ COLON :: v ++ DQUOTE :: w ++ DQUOTE :: t ++ [SEMICOLON]) = w.
Proof.
  intros Hu Hv Ht.
  set (s := lit "s:" ++ u ++ COLON :: v ++ DQUOTE :: w ++ DQUOTE :: t ++ [SEMICOLON]).
  assert (Hlen : (2 + length u <= length s)%nat).
  { unfold s. rewrite !length_app. simpl. lia. }
  unfold strip_php_serialized. fold s.
  assert (Hs : startswith s (lit "s:") = true) by apply startswith_app.
  assert (He : endswith s [SEMICOLON] = true).
  { apply endswith_spec.
    exists (lit "s:" ++ u ++ COLON :: v ++ DQUOTE :: w ++ DQUOTE :: t).
    unfold s. repeat (rewrite <- ?app_assoc, <- ?app_comm_cons). reflexivity. }
  rewrite Hs, He. cbn [andb].
  (* the first colon after "s:" *)
  assert (Hfc : str_find [COLON] s 2 (len s) = Z.of_nat (2 + length u)).
  { change 2%Z with (Z.of_nat 2). rewrite str_find_char by lia.
    unfold s. rewrite (skipn_app_exact (lit "s:")) by reflexivity.
    now rewrite index_of_char_first. }
  rewrite Hfc.
  destruct (Z.eqb_spec (Z.of_nat (2 + length u)) (-1)); [lia|]. cbn [negb].
  (* the first quote from there on *)
  assert (Hfq : str_find [DQUOTE] s (Z.of_nat (2 + length u)) (len s)
                = Z.of_nat (2 + length u + (1 + length v))).
  { rewrite str_find_char by lia.
    unfold s. rewrite app_assoc.
    rewrite (skipn_app_exact (lit "s:" ++ u)) by (rewrite length_app; reflexivity).
    rewrite (app_comm_cons v _ COLON).
    rewrite (index_of_char_first DQUOTE (COLON :: v)); [reflexivity|].
    intros [H|H]; [discriminate|contradiction]. }
  rewrite Hfq.
  destruct (Z.eqb_spec (Z.of_nat (2 + length u + (1 + length v))) (-1)); [lia|].
  cbn [negb].
  (* the last quote before the final character *)
  assert (Hlq : str_rfind [DQUOTE] s 0 (len s - 1)
                = Z.of_nat (2 + length u + (1 + length v) + (1 + length w))).
  { rewrite str_rfind_char.
    replace s with ((lit "s:" ++ u ++ COLON :: v ++ DQUOTE :: w ++ DQUOTE :: t)
                      ++ [SEMICOLON])
      by (unfold s; repeat (rewrite <- ?app_assoc, <- ?app_comm_cons); reflexivity).
    rewrite removelast_last.
    replace (lit "s:" ++ u ++ COLON :: v ++ DQUOTE :: w ++ DQUOTE :: t)
      with ((lit "s:" ++ u ++ COLON :: v ++ DQUOTE :: w) ++ DQUOTE :: t)
      by (repeat (rewrite <- ?app_assoc, <- ?app_comm_cons); reflexivity).
    rewrite rindex_of_char_last by assumption.
    f_equal. solve_len. }
  rewrite Hlq.
  destruct (Z.eqb_spec (Z.of_nat (2 + length u + (1 + length v) + (1 + length w))) (-1));
    [lia|]. cbn [negb andb].
  destruct (Z.gtb_spec (Z.of_nat (2 + length u + (1 + length v) + (1 + length w)))
              (Z.of_nat (2 + length u + (1 + length v)))); [|lia].
  replace s with ((lit "s:" ++ u ++ COLON :: v ++ [DQUOTE]) ++ w ++ DQUOTE :: t ++ [SEMICOLON])
    by (unfold s; repeat (rewrite <- ?app_assoc, <- ?app_comm_cons); reflexivity).
  replace (Z.of_nat (2 + length u + (1 + length v)) + 1)%Z
    with (len (lit "s:" ++ u ++ COLON :: v ++ [DQUOTE])).
  2:{ solve_len. }
  replace (Z.of_nat (2 + length u + (1 + length v) + (1 + length w)))
    with (len (lit "s:" ++ u ++ COLON :: v ++ [DQUOTE]) + len w)%Z.
  2:{ solve_len. }
  apply py_slice_mid.
Qed.

Lemma strip_quotes_not_quoted (x : str) :
  startswith x [DQUOTE] = false -> strip_quotes x = x.
Proof. unfold strip_quotes. now intros ->. Qed.

(** A string with neither framing is left as it is. *)
Lemma unwrap_plain (x : str) :
  quoted x = false -> serialized_shape x = false -> unwrap x = x.
Proof.
  unfold unwrap, strip_quotes, strip_php_serialized, quoted, serialized_shape.
  intros -> H. now rewrite H.
Qed.

Lemma strip_php_serialized_no_landmark (x : str) :
  landmark_absent x -> strip_php_serialized x = x.
Proof.
  intros H. unfold strip_php_serialized.
  destruct (startswith x (lit "s:") && endswith x [SEMICOLON]) eqn:Hshape;
    [|reflexivity].
  apply andb_true_iff in Hshape as [_ Hend].
  destruct H as [y Hy | u r Hu Hr | u v r Hu Hv Hr].
  - (* no colon *)
    change 2%Z with (Z.of_nat 2). rewrite str_find_char by (solve_len).
    rewrite (skipn_app_exact (lit "s:")) by reflexivity.
    now rewrite index_of_char_none.
  - (* no quote after the colon *)
    change 2%Z with (Z.of_nat 2). rewrite str_find_char by solve_len.
    rewrite (skipn_app_exact (lit "s:")) by reflexivity.
    rewrite index_of_char_first by assumption.
    destruct (Z.eqb_spec (Z.of_nat (2 + length u)) (-1)); [lia|]. cbn [negb].
    rewrite str_find_char by solve_len.
    rewrite app_assoc.
    rewrite (skipn_app_exact (lit "s:" ++ u)) by solve_len.
    rewrite index_of_char_none; [reflexivity|].
    intros [H|H]; [discriminate|contradiction].
  - (* the first quote is the only one before the final character *)
    change 2%Z with (Z.of_nat 2). rewrite str_find_char by solve_len.
    rewrite (skipn_app_exact (lit "s:")) by reflexivity.
    rewrite index_of_char_first by assumption.
    destruct (Z.eqb_spec (Z.of_nat (2 + length u)) (-1)); [lia|]. cbn [negb].
    rewrite str_find_char by solve_len.
    rewrite app_assoc.
    rewrite (skipn_app_exact (lit "s:" ++ u)) by solve_len.
    rewrite (app_comm_cons v _ COLON).
    rewrite (index_of_char_first DQUOTE (COLON :: v))
      by (intros [H|H]; [discriminate|contradiction]).
    match goal with
    | |- context [negb (?a =? -1)%Z] => destruct (Z.eqb_spec a (-1)); [lia|]
    end.
    cbn [negb].
    rewrite str_rfind_char.
    destruct r as [|c r].
    { (* the string would end with the quote, not the semicolon *)
      exfalso. apply endswith_spec in Hend as [t Ht].
      apply (f_equal (@rev char)) in Ht. revert Ht.
      rewrite !rev_app_distr. simpl. rewrite !rev_app_distr. simpl.
      discriminate. }
    replace ((lit "s:" ++ u) ++ (COLON :: v) ++ DQUOTE :: c :: r)
      with ((((lit "s:" ++ u) ++ COLON :: v) ++ [DQUOTE]) ++ c :: r)
      by (now rewrite <- !app_assoc).
    rewrite removelast_app by discriminate.
    rewrite <- (app_assoc _ [DQUOTE]). cbn [app].
    rewrite rindex_of_char_last by assumption.
    match goal with
    | |- context [(?a >? ?b)%Z] =>
        destruct (Z.gtb_spec a b) as [Hgt|Hle];
        [revert Hgt; rewrite !length_app; cbn [length lit map list_ascii_of_string]; lia|]
    end.
    now rewrite andb_false_r.
Qed.

Lemma forallb_digit_no (c : char) (n : str) :
  is_digit c = false -> forallb is_digit n = true -> ~ In c n.
Proof.
  intros Hc Hn Hin. rewrite forallb_forall in Hn.
  specialize (Hn c Hin). congruence.
Qed.

(** C5. For a quote-free content [c] and a digit string [n], equal to the
    length of [c] or not, the unwrapper maps [s:n:"c";] to [c]: the length
    field is never compared with the content.  A string that starts with
    [s:] and lacks a landmark (the colon after position 2, the first
    quote, a later last quote before the final character) is returned
    unchanged. *)
Theorem unwrap_php_serialized_ignores_length :
  (forall c n : str,
      ~ In DQUOTE c -> forallb is_digit n = true ->
      unwrap (lit "s:" ++ n ++ [COLON; DQUOTE] ++ c ++ [DQUOTE; SEMICOLON]) = c)
  /\ (forall x : str, landmark_absent x -> unwrap x = x).
Proof.
  split.
  - intros c n _ Hn. unfold unwrap.
    rewrite strip_quotes_not_quoted by reflexivity.
    apply (strip_php_serialized_shape n [] c []); [|easy|easy].
    now apply forallb_digit_no.
  - intros x H. unfold unwrap.
    rewrite strip_quotes_not_quoted by (destruct H; reflexivity).
    now apply strip_php_serialized_no_landmark.
Qed.

(** The length field says 999, the content has five characters; and a
    serialized-looking string without any quote stays as it is. *)
Lemma unwrap_php_serialized_ignores_length_witness :
  unwrap (lit "s:999:" ++ [DQUOTE] ++ lit "hello" ++ [DQUOTE] ++ lit ";") = lit "hello"
  /\ unwrap (lit "s:5:hello;") = lit "s:5:hello;".
Proof.
  split.
  - apply (proj1 unwrap_php_serialized_ignores_length (lit "hello") (lit "999")).
    + simpl. intros H. repeat (destruct H as [H|H]; [discriminate|]). exact H.
    + reflexivity.
  - apply (proj2 unwrap_php_serialized_ignores_length).
    apply (no_first_quote (lit "5") (lit "hello;")).
    + simpl. intros H. repeat (destruct H as [H|H]; [discriminate|]). exact H.
    + simpl. intros H. repeat (destruct H as [H|H]; [discriminate|]). exact H.
Defined.

(** C3, as stated, fails on the letter a inside two layers of double
    quotes: the first pass leaves it in one layer of quotes, the second
    pass strips those too. *)
Lemma unwrap_not_idempotent :
  unwrap doubly_quoted = [DQUOTE] ++ lit "a" ++ [DQUOTE]
  /\ unwrap (unwrap doubly_quoted) = lit "a"
  /\ unwrap (unwrap doubly_quoted) <> unwrap doubly_quoted.
Proof. repeat split. discriminate. Qed.

(** ** The strings the unwrapper leaves unchanged *)

Lemma py_slice_length {A : Type} (s : list A) (a b : Z) :
  (length (py_slice s a b) <= length s - adjust_index (length s) a)%nat.
Proof.
  unfold py_slice. rewrite length_firstn, length_skipn. lia.
Qed.

Lemma strip_php_serialized_length (z : str) :
  (length (strip_php_serialized z) <= length z)%nat.
Proof.
  unfold strip_php_serialized.
  repeat match goal with
         | |- context [if ?b then _ else _] => destruct b
         end; try lia.
  etransitivity; [apply py_slice_length|lia].
Qed.

(** A quoted string gets shorter. *)
Lemma unwrap_quoted_shorter (y : str) :
  quoted y = true -> (length (unwrap y) < length y)%nat.
Proof.
  unfold unwrap, strip_quotes, quoted. intros Hq. rewrite Hq.
  apply andb_true_iff in Hq as [Hs _].
  destruct y as [|c y]; [discriminate|].
  eapply Nat.le_lt_trans; [apply strip_php_serialized_length|].
  eapply Nat.le_lt_trans; [apply py_slice_length|].
  unfold adjust_index. simpl length.
  destruct (Z.ltb_spec 1 0); lia.
Qed.

Lemma split_first (c : char) (s : str) :
  ~ In c s \/ exists u r, s = u ++ c :: r /\ ~ In c u.
Proof.
  induction s as [|x s IH]; [now left|].
  destruct (N.eq_dec x c) as [->|Hne].
  - right. exists [], s. now split.
  - destruct IH as [Hn|(u & r & -> & Hu)].
    + left. intros [E|Hin]; [now apply Hne|now apply Hn].
    + right. exists (x :: u), r. split; [reflexivity|].
      intros [E|Hin]; [now apply Hne|now apply Hu].
Qed.

Lemma split_last (c : char) (s : str) :
  ~ In c s \/ exists r t, s = r ++ c :: t /\ ~ In c t.
Proof.
  destruct (split_first c (rev s)) as [Hn|(u & r & E & Hu)].
  - left. intros Hin. apply Hn. now apply in_rev in Hin.
  - right. exists (rev r), (rev u). split.
    + rewrite <- (rev_involutive s), E, rev_app_distr. simpl.
      now rewrite <- app_assoc.
    + intros Hin. apply Hu. now apply in_rev.
Qed.

Lemma ends_with_char_app (p s : str) (c x : char) :
  endswith (p ++ x :: s) [c] = true ->
  (s = [] /\ x = c) \/ exists s0, s = s0 ++ [c].
Proof.
  intros H. apply endswith_spec in H as [t Ht].
  destruct s as [|y s] using rev_ind.
  - left. split; [reflexivity|].
    apply (f_equal (@rev char)) in Ht. rewrite !rev_app_distr in Ht.
    simpl in Ht. now injection Ht.
  - right. exists s. f_equal. f_equal.
    apply (f_equal (@rev char)) in Ht.
    rewrite app_comm_cons, app_assoc, !rev_app_distr in Ht.
    simpl in Ht. now injection Ht.
Qed.

(** A string with the serialized shape either lacks a landmark or has all
    of them: a colon-free length field, a quote-free stretch up to the
    opening quote, the content, the closing quote, and a quote-free rest
    before the final semicolon. *)
Lemma serialized_shape_cases (y : str) :
  serialized_shape y = true ->
  landmark_absent y
  \/ exists u v w t,
       y = lit "s:" ++ u ++ COLON :: v ++ DQUOTE :: w ++ DQUOTE :: t ++ [SEMICOLON]
       /\ ~ In COLON u /\ ~ In DQUOTE v /\ ~ In DQUOTE t.
Proof.
  unfold serialized_shape. intros H. apply andb_true_iff in H as [Hs He].
  apply startswith_spec in Hs as [rest ->].
  destruct (split_first COLON rest) as [Hn|(u & r & -> & Hu)].
  { left. now apply no_colon. }
  destruct (split_first DQUOTE r) as [Hn|(v & r' & -> & Hv)].
  { left. now apply no_first_quote. }
  assert (Hr' : exists r0, r' = r0 ++ [SEMICOLON]).
  { replace (lit "s:" ++ u ++ COLON :: v ++ DQUOTE :: r')
      with ((lit "s:" ++ u ++ COLON :: v) ++ DQUOTE :: r') in He
      by (now rewrite <- !app_assoc).
    apply ends_with_char_app in He as [[_ E]|Hr']; [discriminate|assumption]. }
  destruct Hr' as [r0 ->].
  destruct (split_last DQUOTE r0) as [Hn|(w & t & -> & Ht)].
  { left. apply no_later_quote; try assumption. now rewrite removelast_last. }
  right. exists u, v, w, t. repeat split; try assumption.
  now rewrite <- !app_assoc.
Qed.

(** The strings the unwrapper returns as they are. *)
Lemma unwrap_fixed_iff (y : str) :
  unwrap y = y <->
  quoted y = false /\ (serialized_shape y = false \/ landmark_absent y).
Proof.
  split.
  - intros Hfix.
    assert (Hq : quoted y = false).
    { destruct (quoted y) eqn:Hq; [|reflexivity].
      apply unwrap_quoted_shorter in Hq. rewrite Hfix in Hq. lia. }
    split; [assumption|].
    destruct (serialized_shape y) eqn:Hs; [|now left]. right.
    destruct (serialized_shape_cases y Hs)
      as [Habs|(u & v & w & t & E & Hu & Hv & Ht)]; [assumption|].
    exfalso. revert Hfix. unfold unwrap, strip_quotes. fold (quoted y). rewrite Hq.
    rewrite E at 1. rewrite strip_php_serialized_shape by assumption.
    intros Hw. apply (f_equal (@length char)) in Hw. revert Hw. rewrite E.
    repeat (rewrite ?length_app; cbn [length]). lia.
  - intros [Hq [Hs|Habs]]; [now apply unwrap_plain|].
    unfold unwrap, strip_quotes. fold (quoted y). rewrite Hq.
    now apply strip_php_serialized_no_landmark.
Qed.

(** C3, amended. A second pass of the unwrapper changes nothing exactly
    when the result of the first pass is a string the unwrapper leaves
    alone: one that does not both start and end with a double quote, and
    that either does not both start with [s:] and end with [;] or lacks one
    of the three landmarks. *)
Theorem unwrap_idempotent_iff (x : str) :
  unwrap (unwrap x) = unwrap x <->
  quoted (unwrap x) = false
  /\ (serialized_shape (unwrap x) = false \/ landmark_absent (unwrap x)).
Proof. apply unwrap_fixed_iff. Qed.

(** C10. The quote test does not ask for two characters: the string made
    of one double quote passes both the starts-with and the ends-with
    test, and the unwrapper returns the empty string for it. *)
Theorem unwrap_single_quote :
  startswith [DQUOTE] [DQUOTE] = true
  /\ endswith [DQUOTE] [DQUOTE] = true
  /\ unwrap [DQUOTE] = [].
Proof. repeat split. Qed.

(** ** Dictionaries *)

Section DictFacts.
Context {V : Type}.
Implicit Types (d : dict V) (k : str) (v : V).

Lemma str_eqb_sym (a b : str) : str_eqb a b = str_eqb b a.
Proof.
  destruct (str_eqb a b) eqn:E.
  - apply str_eqb_eq in E. subst. now rewrite str_eqb_refl.
  - destruct (str_eqb b a) eqn:E'; [|reflexivity].
    apply str_eqb_eq in E'. subst. now rewrite str_eqb_refl in E.
Qed.

Lemma str_eqb_neq (a b : str) : str_eqb a b = false <-> a <> b.
Proof.
  split.
  - intros E ->. now rewrite str_eqb_refl in E.
  - intros H. destruct (str_eqb a b) eqn:E; [|reflexivity].
    now apply str_eqb_eq in E.
Qed.

Lemma dict_mem_in k d : dict_mem k d = true <-> In k (keys d).
Proof.
  unfold dict_mem. induction d as [|[k' v'] d IH]; simpl; [easy|].
  destruct (str_eqb k k') eqn:E.
  - apply str_eqb_eq in E. subst. intuition.
  - apply str_eqb_neq in E. rewrite IH. intuition congruence.
Qed.

Lemma dict_mem_false k d : dict_mem k d = false <-> ~ In k (keys d).
Proof.
  rewrite <- dict_mem_in. destruct (dict_mem k d); intuition congruence.
Qed.

Lemma dict_get_none k d : dict_get k d = None <-> ~ In k (keys d).
Proof.
  rewrite <- dict_mem_false. unfold dict_mem.
  destruct (dict_get k d); intuition congruence.
Qed.

Lemma dict_get_set_same k v d : dict_get k (dict_set k v d) = Some v.
Proof.
  induction d as [|[k' v'] d IH]; simpl.
  - now rewrite str_eqb_refl.
  - destruct (str_eqb k k') eqn:E; simpl; now rewrite E.
Qed.

Lemma dict_get_set_other k k' v d :
  k <> k' -> dict_get k' (dict_set k v d) = dict_get k' d.
Proof.
  intros Hne. induction d as [|[k0 v0] d IH]; simpl.
  - apply not_eq_sym in Hne. apply str_eqb_neq in Hne. now rewrite Hne.
  - destruct (str_eqb k k0) eqn:E; simpl.
    + apply str_eqb_eq in E. subst k0.
      apply not_eq_sym in Hne. apply str_eqb_neq in Hne. now rewrite Hne.
    + now rewrite IH.
Qed.

Lemma dict_get_set k k' v d :
  dict_get k' (dict_set k v d) = if str_eqb k k' then Some v else dict_get k' d.
Proof.
  destruct (str_eqb k k') eqn:E.
  - apply str_eqb_eq in E. subst. apply dict_get_set_same.
  - apply str_eqb_neq in E. now apply dict_get_set_other.
Qed.

(** Assigning to a key the dictionary has keeps the order of the keys;
    assigning to a new key puts it last. *)
Lemma keys_set_old k v d : In k (keys d) -> keys (dict_set k v d) = keys d.
Proof.
  induction d as [|[k' v'] d IH]; simpl; [easy|].
  intros H. destruct (str_eqb k k') eqn:E; [reflexivity|].
  simpl. f_equal. apply IH. destruct H as [->|H]; [|assumption].
  now rewrite str_eqb_refl in E.
Qed.

Lemma keys_set_new k v d : ~ In k (keys d) -> keys (dict_set k v d) = keys d ++ [k].
Proof.
  induction d as [|[k' v'] d IH]; simpl; [easy|].
  intros H. destruct (str_eqb k k') eqn:E.
  - apply str_eqb_eq in E. subst. exfalso. apply H. now left.
  - simpl. f_equal. apply IH. intros Hin. apply H. now right.
Qed.

Lemma in_keys_set k k' v d :
  In k' (keys (dict_set k v d)) <-> k' = k \/ In k' (keys d).
Proof.
  rewrite <- !dict_mem_in. unfold dict_mem. rewrite dict_get_set.
  destruct (str_eqb k k') eqn:E.
  - apply str_eqb_eq in E. subst. intuition.
  - apply str_eqb_neq in E. destruct (dict_get k' d); intuition congruence.
Qed.

End DictFacts.

(** Membership of a name in a list of names, as a test. *)
Lemma existsb_str_eqb (k : str) (l : list str) :
  existsb (str_eqb k) l = true <-> In k l.
Proof.
  rewrite existsb_exists. split.
  - intros (x & Hx & E). apply str_eqb_eq in E. now subst.
  - intros H. exists k. split; [assumption|apply str_eqb_refl].
Qed.

Lemma nodupb_NoDup (l : list str) : nodupb l = true -> NoDup l.
Proof.
  induction l as [|k l IH]; simpl; intros H; constructor.
  - apply andb_true_iff in H as [H _]. apply negb_true_iff in H.
    intros Hin. apply existsb_str_eqb in Hin. congruence.
  - apply IH. now apply andb_true_iff in H as [_ H].
Qed.

(** ** The key order of the rebuilt record (lines 201-211) *)

Lemma add_preferred_get (order : list str) (d acc : dict pyval) (k : str) :
  dict_get k (add_preferred order d acc) =
  if existsb (str_eqb k) order && dict_mem k d then dict_get k d
  else dict_get k acc.
Proof.
  revert acc. induction order as [|key rest IH]; intros acc; simpl; [reflexivity|].
  rewrite IH. unfold dict_mem.
  destruct (str_eqb k key) eqn:E; simpl.
  - apply str_eqb_eq in E. subst key.
    destruct (dict_get k d) as [v|] eqn:Hd.
    + rewrite dict_get_set_same. now rewrite andb_true_r; destruct (existsb _ rest).
    + now rewrite andb_false_r.
  - assert (key <> k) as Hne by (intros ->; now rewrite str_eqb_refl in E).
    destruct (dict_get key d); [|reflexivity].
    now rewrite dict_get_set_other.
Qed.

Lemma add_preferred_keys (order : list str) (d acc : dict pyval) :
  NoDup order -> (forall k, In k order -> ~ In k (keys acc)) ->
  keys (add_preferred order d acc)
  = keys acc ++ filter (fun k => dict_mem k d) order.
Proof.
  revert acc. induction order as [|key rest IH]; intros acc Hnd Hfresh; simpl.
  - now rewrite app_nil_r.
  - inversion Hnd as [|? ? Hnotin Hnd']; subst.
    assert (Hm : dict_mem key d
                 = match dict_get key d with Some _ => true | None => false end)
      by reflexivity.
    rewrite Hm. destruct (dict_get key d) as [v|] eqn:Hd.
    + rewrite IH; [|assumption|].
      * rewrite keys_set_new by (apply Hfresh; now left).
        now rewrite <- app_assoc.
      * intros k Hk Hin. apply in_keys_set in Hin as [->|Hin]; [contradiction|].
        apply (Hfresh k); [now right|assumption].
    + apply IH; [assumption|]. intros k Hk. apply Hfresh. now right.
Qed.

Lemma add_remaining_get (ks : list str) (d acc : dict pyval) (k : str) :
  dict_get k (add_remaining ks d acc) =
  match dict_get k acc with
  | Some v => Some v
  | None => if existsb (str_eqb k) ks then dict_get k d else None
  end.
Proof.
  revert acc. induction ks as [|key rest IH]; intros acc; simpl.
  - now destruct (dict_get k acc).
  - rewrite IH. unfold dict_mem.
    destruct (str_eqb k key) eqn:E; simpl.
    + apply str_eqb_eq in E. subst key.
      destruct (dict_get k acc) as [v|] eqn:Ha; [now rewrite Ha|].
      destruct (dict_get k d) as [v|] eqn:Hd.
      * now rewrite dict_get_set_same.
      * rewrite Ha. now destruct (existsb _ rest).
    + assert (key <> k) as Hne by (intros ->; now rewrite str_eqb_refl in E).
      destruct (dict_get key acc); [reflexivity|].
      destruct (dict_get key d); [|reflexivity].
      now rewrite dict_get_set_other.
Qed.

Lemma add_remaining_keys (ks : list str) (d acc : dict pyval) :
  NoDup ks -> (forall k, In k ks -> In k (keys d)) ->
  keys (add_remaining ks d acc)
  = keys acc ++ filter (fun k => negb (dict_mem k acc)) ks.
Proof.
  revert acc. induction ks as [|key rest IH]; intros acc Hnd Hin; simpl.
  - now rewrite app_nil_r.
  - inversion Hnd as [|? ? Hnotin Hnd']; subst.
    assert (Hrest : forall k, In k rest -> In k (keys d))
      by (intros k Hk; apply Hin; now right).
    destruct (dict_mem key acc) eqn:Hm; simpl.
    + now apply IH.
    + assert (In key (keys d)) as Hk by (apply Hin; now left).
      apply dict_mem_in in Hk. unfold dict_mem in Hk.
      destruct (dict_get key d) as [v|]; [|discriminate].
      rewrite IH by assumption.
      rewrite keys_set_new by (now apply dict_mem_false).
      rewrite <- app_assoc. simpl. do 2 f_equal.
      apply filter_ext_in. intros k Hkin. f_equal.
      unfold dict_mem. rewrite dict_get_set_other; [reflexivity|].
      intros ->. contradiction.
Qed.

Lemma reorder_get (order : list str) (d : dict pyval) (k : str) :
  dict_get k (reorder order d) = dict_get k d.
Proof.
  unfold reorder. rewrite add_remaining_get, add_preferred_get. simpl.
  unfold dict_mem.
  destruct (dict_get k d) as [v|] eqn:Hd.
  - destruct (existsb (str_eqb k) order); simpl; [reflexivity|].
    assert (In k (keys d)) as Hin.
    { apply dict_mem_in. unfold dict_mem. now rewrite Hd. }
    apply existsb_str_eqb in Hin. now rewrite Hin.
  - rewrite andb_false_r. now destruct (existsb _ (keys d)).
Qed.

Lemma reorder_keys (order : list str) (d : dict pyval) :
  NoDup order -> NoDup (keys d) ->
  keys (reorder order d)
  = filter (fun k => dict_mem k d) order
      ++ filter (fun k => negb (existsb (str_eqb k) order)) (keys d).
Proof.
  intros Ho Hd. unfold reorder.
  rewrite add_remaining_keys by auto.
  rewrite add_preferred_keys by (simpl; auto). simpl. f_equal.
  apply filter_ext_in. intros k Hk. f_equal.
  unfold dict_mem at 1. rewrite add_preferred_get. simpl.
  apply dict_mem_in in Hk. rewrite Hk, andb_true_r.
  destruct (existsb (str_eqb k) order) eqn:E; [|reflexivity].
  unfold dict_mem in Hk. now destruct (dict_get k d).
Qed.

(** C6. The rebuilt record lists first the names of the order that the
    record has, in the order's sequence, then the remaining keys of the
    record in their original relative order; every key keeps its value. *)
Theorem reorder_preferred_then_rest (order : list str) (d : dict pyval) :
  NoDup order -> NoDup (keys d) ->
  keys (reorder order d)
  = filter (fun k => dict_mem k d) order
      ++ filter (fun k => negb (existsb (str_eqb k) order)) (keys d)
  /\ forall k, dict_get k (reorder order d) = dict_get k d.
Proof.
  intros Ho Hd. split; [now apply reorder_keys|]. intros k. apply reorder_get.
Qed.

(** The example of the specification: order [id, stream] and the record
    with download, id and stream give the key order id, stream, download. *)
Lemma reorder_preferred_then_rest_witness :
  keys (reorder example_order example_record)
  = [lit "id"; lit "stream"; lit "download"]
  /\ forall k, dict_get k (reorder example_order example_record)
               = dict_get k example_record.
Proof.
  apply (reorder_preferred_then_rest example_order example_record);
    apply nodupb_NoDup; reflexivity.
Defined.

(** ** The field loop and the normaliser (lines 178-215) *)

Section NormalizeFacts.

Variable exn_str : exn -> str.
Variable json_loads : bytes -> outcome pyval.

Local Abbreviation decrypt := (decrypt_laravel_string_unsafe exn_str json_loads).
Local Abbreviation field_loop := (decrypt_fields exn_str json_loads).

(** One turn of the loop: the value the name gets. *)
Lemma decrypt_fields_step (app_key_str : option str) (key : str) (rest : list str)
      (d d' : dict pyval) :
  field_loop app_key_str (key :: rest) d = Returns d' ->
  exists v,
    field_loop app_key_str rest (dict_set key v d) = Returns d'
    /\ match dict_get key d with
       | Some (PStr s) => exists t, decrypt s app_key_str = Returns t /\ v = PStr t
       | _ => v = PNone
       end.
Proof.
  simpl. destruct (dict_get key d) as [[| | | |s| |]|] eqn:Hd;
    try (intros H; exists PNone; now split).
  destruct (decrypt s app_key_str) as [t|e] eqn:Ht; simpl; [|discriminate].
  intros H. exists (PStr t). split; [assumption|]. now exists t.
Qed.

Lemma decrypt_fields_keys (app_key_str : option str) (fields : list str)
      (d d' : dict pyval) :
  field_loop app_key_str fields d = Returns d' ->
  forall k, In k (keys d') <-> In k (keys d) \/ In k fields.
Proof.
  revert d. induction fields as [|key rest IH]; intros d H k.
  - injection H as <-. simpl. tauto.
  - apply decrypt_fields_step in H as (v & H & _).
    rewrite (IH _ H k), in_keys_set. simpl. intuition.
Qed.

Lemma decrypt_fields_other (app_key_str : option str) (fields : list str)
      (d d' : dict pyval) :
  field_loop app_key_str fields d = Returns d' ->
  forall k, ~ In k fields -> dict_get k d' = dict_get k d.
Proof.
  revert d. induction fields as [|key rest IH]; intros d H k Hk.
  - now injection H as <-.
  - apply decrypt_fields_step in H as (v & H & _).
    rewrite (IH _ H k) by (intros ?; apply Hk; now right).
    apply dict_get_set_other. intros ->. apply Hk. now left.
Qed.

Lemma decrypt_fields_field (app_key_str : option str) (fields : list str)
      (d d' : dict pyval) :
  NoDup fields ->
  field_loop app_key_str fields d = Returns d' ->
  forall k, In k fields ->
    match dict_get k d with
    | Some (PStr s) =>
        exists t, decrypt s app_key_str = Returns t /\ dict_get k d' = Some (PStr t)
    | _ => dict_get k d' = Some PNone
    end.
Proof.
  revert d. induction fields as [|key rest IH]; intros d Hnd H k Hk; [easy|].
  inversion Hnd as [|? ? Hnotin Hnd']; subst.
  apply decrypt_fields_step in H as (v & H & Hv).
  destruct Hk as [->|Hk].
  - rewrite (decrypt_fields_other _ _ _ _ H k Hnotin), dict_get_set_same.
    destruct (dict_get k d) as [[| | | |s| |]|]; try now subst.
    destruct Hv as (t & Ht & ->). now exists t.
  - specialize (IH _ Hnd' H k Hk).
    rewrite dict_get_set_other in IH by (intros ->; contradiction).
    exact IH.
Qed.

(** The loop returns as soon as every string it meets decrypts without an
    exception. *)
Lemma decrypt_fields_returns (app_key_str : option str) (fields : list str)
      (d : dict pyval) :
  NoDup fields ->
  (forall k s, In k fields -> dict_get k d = Some (PStr s) ->
               exists t, decrypt s app_key_str = Returns t) ->
  exists d', field_loop app_key_str fields d = Returns d'.
Proof.
  revert d. induction fields as [|key rest IH]; intros d Hnd Hdec.
  - now exists d.
  - inversion Hnd as [|? ? Hnotin Hnd']; subst. simpl.
    assert (Hrest : forall v k s, In k rest ->
                      dict_get k (dict_set key v d) = Some (PStr s) ->
                      exists t, decrypt s app_key_str = Returns t).
    { intros v k s Hk Hget.
      rewrite dict_get_set_other in Hget by (intros ->; contradiction).
      apply (Hdec k s); [now right|assumption]. }
    destruct (dict_get key d) as [[| | | |s| |]|] eqn:Hd;
      try (apply IH; [assumption|apply Hrest]).
    destruct (Hdec key s (or_introl eq_refl) Hd) as [t ->]. simpl.
    apply IH; [assumption|apply Hrest].
Qed.

Lemma normalize_dict (app_key_str : option str) (d d' : dict pyval) :
  normalize exn_str json_loads app_key_str (PDict d) = Returns d' ->
  exists d1,
    field_loop app_key_str encrypted_url_keys d = Returns d1
    /\ d' = reorder PREFERRED_MOVIE_KEY_ORDER d1.
Proof.
  unfold normalize.
  destruct (field_loop app_key_str encrypted_url_keys d) as [d1|e]; simpl;
    [|discriminate].
  intros H. injection H as <-. now exists d1.
Qed.

Lemma in_keys_reorder (order : list str) (d : dict pyval) (k : str) :
  In k (keys (reorder order d)) <-> In k (keys d).
Proof.
  rewrite <- !dict_mem_in. unfold dict_mem. now rewrite reorder_get.
Qed.


Lemma encrypted_url_keys_NoDup : NoDup encrypted_url_keys.
Proof. apply nodupb_NoDup. reflexivity. Qed.


End NormalizeFacts.

(** ** The decryptor and the movie handler *)

Section HandlerFacts.

Variable exn_str : exn -> str.
Variable json_loads : bytes -> outcome pyval.
Variable requests_get : str -> outcome http_response.

Local Abbreviation decrypt := (decrypt_laravel_string_unsafe exn_str json_loads).
Local Abbreviation movie := (get_movie_details exn_str json_loads requests_get).

(** The second [try] catches every exception: once the envelope is
    decoded, the decryptor returns a string. *)
Lemma except_Exception (e : exn) : except_matches [Exception] e = true.
Proof. unfold except_matches. simpl. now destruct (exn_cls e). Qed.

Lemma decrypt_after_decode (encrypted : str) (app_key_str : option str)
      (iv value : bytes) :
  key_missing app_key_str = false ->
  decode_envelope json_loads encrypted = Returns (iv, value) ->
  exists text, decrypt encrypted app_key_str = Returns text.
Proof.
  intros Hk Hd. unfold decrypt_laravel_string_unsafe. rewrite Hk, Hd.
  destruct (decrypt_value _ iv value) as [p|e]; [now exists p|].
  rewrite except_Exception. eauto.
Qed.

(** C8. With the key missing (None) or empty, the decryptor returns the
    fixed message for every envelope, whatever the JSON library would do
    with it, and the movie handler answers 500 with the configuration
    error as its body. *)
Theorem missing_key_reported (app_key_str : option str) :
  app_key_str = None \/ app_key_str = Some [] ->
  (forall encrypted : str,
      decrypt encrypted app_key_str
      = Returns (lit "Decryption key (APP_KEY_STR) is missing."))
  /\ (forall movie_id : nat,
         movie app_key_str movie_id
         = Returns (FlaskResponse 500
                      (JsonBody (PDict [(lit "error",
                         PStr (lit "Server configuration error: Decryption key is missing."))])))).
Proof.
  intros [-> | ->]; split; reflexivity.
Qed.

End HandlerFacts.

Lemma missing_key_reported_witness :
  (forall encrypted : str,
      decrypt_laravel_string_unsafe exn_text json_loads_ref encrypted None
      = Returns (lit "Decryption key (APP_KEY_STR) is missing."))
  /\ (forall movie_id : nat,
         get_movie_details exn_text json_loads_ref (upstream_ok PNone) None movie_id
         = Returns (FlaskResponse 500
                      (JsonBody (PDict [(lit "error",
                         PStr (lit "Server configuration error: Decryption key is missing."))])))).
Proof.
  apply (missing_key_reported exn_text json_loads_ref (upstream_ok PNone) None).
  now left.
Defined.

(** ** Bytes *)

Lemma to_N_byte_of_N (n : N) : (n < 256)%N -> Byte.to_N (byte_of_N n) = n.
Proof.
  intros H. unfold byte_of_N. rewrite N.mod_small by assumption.
  destruct (Byte.of_N n) as [b|] eqn:E.
  - now apply Byte.to_of_N.
  - apply Byte.of_N_None_iff in E. lia.
Qed.

Lemma byte_of_N_to_N (b : byte) : byte_of_N (Byte.to_N b) = b.
Proof.
  unfold byte_of_N. pose proof (Byte.to_N_bounded b).
  rewrite N.mod_small by lia. now rewrite Byte.of_to_N.
Qed.

Lemma to_N_lt_256 (b : byte) : (Byte.to_N b < 256)%N.
Proof. pose proof (Byte.to_N_bounded b). lia. Qed.

Lemma byte_eqb_refl (b : byte) : Byte.eqb b b = true.
Proof. now apply Byte.byte_dec_lb. Qed.

Lemma byte_eqb_eq (a b : byte) : Byte.eqb a b = true <-> a = b.
Proof. split; [apply Byte.byte_dec_bl|intros ->; apply byte_eqb_refl]. Qed.

Lemma in_all_bytes (b : byte) : In b all_bytes.
Proof.
  unfold all_bytes. apply in_map_iff. exists (Byte.to_nat b). split.
  - rewrite Byte.to_nat_via_N, N2Nat.id. apply byte_of_N_to_N.
  - apply in_seq. pose proof (Byte.to_N_bounded b).
    rewrite Byte.to_nat_via_N. lia.
Qed.

(** A property checked on every byte holds for every byte. *)
Lemma forall_byte (P : byte -> bool) :
  forallb P all_bytes = true -> forall b, P b = true.
Proof.
  intros H b. rewrite forallb_forall in H. apply H, in_all_bytes.
Qed.

Lemma forall_byte2 (P : byte -> byte -> bool) :
  forallb (fun a => forallb (P a) all_bytes) all_bytes = true ->
  forall a b, P a b = true.
Proof.
  intros H a b. apply forall_byte. revert a. now apply forall_byte.
Qed.

Lemma bytes_eqb_eq (a b : bytes) : bytes_eqb a b = true <-> a = b.
Proof.
  revert b; induction a as [|x a IH]; intros [|y b]; simpl; try easy.
  rewrite andb_true_iff, byte_eqb_eq, IH. split.
  - now intros [-> ->].
  - intros H. now injection H.
Qed.

(** Induction over a list three elements at a time. *)
Lemma list_ind3 {A : Type} (P : list A -> Prop) :
  P [] -> (forall a, P [a]) -> (forall a b, P [a; b]) ->
  (forall a b c l, P l -> P (a :: b :: c :: l)) ->
  forall l, P l.
Proof.
  intros H0 H1 H2 H3 l.
  enough (P l /\ (forall a, P (a :: l)) /\ (forall a b, P (a :: b :: l))) by tauto.
  induction l as [|x l (IH0 & IH1 & IH2)]; [auto|].
  repeat split; auto.
Qed.

(** ** Base64 *)

Section Base64Facts.

(** The four characters of a full group and the values they stand for. *)
Let v0 (a : byte) : N := N.shiftr (Byte.to_N a) 2.
Let v1 (a b : byte) : N :=
  N.lor (N.shiftl (N.land (Byte.to_N a) 3) 4) (N.shiftr (Byte.to_N b) 4).
Let v2 (b c : byte) : N :=
  N.lor (N.shiftl (N.land (Byte.to_N b) 15) 2) (N.shiftr (Byte.to_N c) 6).
Let v3 (c : byte) : N := N.land (Byte.to_N c) 63.
Let v1_last (a : byte) : N := N.shiftl (N.land (Byte.to_N a) 3) 4.
Let v2_last (b : byte) : N := N.shiftl (N.land (Byte.to_N b) 15) 2.

Lemma char_of_value_spec (c : byte) (v : N) :
  char_of_value c v = true ->
  Byte.eqb c BASE64_PAD = false
  /\ table_a2b_base64 c = Some v
  /\ (Byte.to_N c < 128)%N.
Proof.
  unfold char_of_value. intros H.
  apply andb_true_iff in H as [H H3]. apply andb_true_iff in H as [H1 H2].
  apply negb_true_iff in H1. apply N.ltb_lt in H3.
  destruct (table_a2b_base64 c) as [v'|]; [|discriminate].
  apply N.eqb_eq in H2. now subst.
Qed.

Lemma char_v0 a : char_of_value (table_b2a_base64 (v0 a)) (v0 a) = true.
Proof. revert a. apply forall_byte. vm_compute. reflexivity. Qed.

Lemma char_v1 a b : char_of_value (table_b2a_base64 (v1 a b)) (v1 a b) = true.
Proof. revert a b. apply forall_byte2. vm_compute. reflexivity. Qed.

Lemma char_v2 b c : char_of_value (table_b2a_base64 (v2 b c)) (v2 b c) = true.
Proof. revert b c. apply forall_byte2. vm_compute. reflexivity. Qed.

Lemma char_v3 c : char_of_value (table_b2a_base64 (v3 c)) (v3 c) = true.
Proof. revert c. apply forall_byte. vm_compute. reflexivity. Qed.

Lemma char_v1_last a :
  char_of_value (table_b2a_base64 (v1_last a)) (v1_last a) = true.
Proof. revert a. apply forall_byte. vm_compute. reflexivity. Qed.

Lemma char_v2_last b :
  char_of_value (table_b2a_base64 (v2_last b)) (v2_last b) = true.
Proof. revert b. apply forall_byte. vm_compute. reflexivity. Qed.

(** The bytes the decoder puts together from the values. *)
Lemma join_first a b :
  Byte.eqb (byte_of_N (N.lor (N.shiftl (v0 a) 2) (N.shiftr (v1 a b) 4))) a = true.
Proof. revert a b. apply forall_byte2. vm_compute. reflexivity. Qed.

Lemma left_after_second a b :
  N.eqb (N.land (v1 a b) 15) (N.shiftr (Byte.to_N b) 4) = true.
Proof. revert a b. apply forall_byte2. vm_compute. reflexivity. Qed.

Lemma join_second b c :
  Byte.eqb (byte_of_N (N.lor (N.shiftl (N.shiftr (Byte.to_N b) 4) 4)
                             (N.shiftr (v2 b c) 2))) b = true.
Proof. revert b c. apply forall_byte2. vm_compute. reflexivity. Qed.

Lemma join_third b c :
  Byte.eqb (byte_of_N (N.lor (N.shiftl (N.land (v2 b c) 3) 6) (v3 c))) c = true.
Proof. revert b c. apply forall_byte2. vm_compute. reflexivity. Qed.

Lemma join_first_last a :
  Byte.eqb (byte_of_N (N.lor (N.shiftl (v0 a) 2) (N.shiftr (v1_last a) 4))) a = true.
Proof. revert a. apply forall_byte. vm_compute. reflexivity. Qed.

Lemma join_second_last b :
  Byte.eqb (byte_of_N (N.lor (N.shiftl (N.shiftr (Byte.to_N b) 4) 4)
                             (N.shiftr (v2_last b) 2))) b = true.
Proof. revert b. apply forall_byte. vm_compute. reflexivity. Qed.

(** One turn of the decoding loop on a character of the alphabet. *)
Lemma loop_char (c : byte) (v : N) (rest : bytes) (quad_pos : nat)
      (leftchar : N) (pads : nat) (out : bytes) :
  char_of_value c v = true ->
  a2b_base64_loop (c :: rest) quad_pos leftchar pads out =
  match quad_pos with
  | 0%nat => a2b_base64_loop rest 1 v 0 out
  | 1%nat =>
      a2b_base64_loop rest 2 (N.land v 15) 0
        (out ++ [byte_of_N (N.lor (N.shiftl leftchar 2) (N.shiftr v 4))])
  | 2%nat =>
      a2b_base64_loop rest 3 (N.land v 3) 0
        (out ++ [byte_of_N (N.lor (N.shiftl leftchar 4) (N.shiftr v 2))])
  | _ =>
      a2b_base64_loop rest 0 0 0
        (out ++ [byte_of_N (N.lor (N.shiftl leftchar 6) v)])
  end.
Proof.
  intros H. apply char_of_value_spec in H as (H1 & H2 & _).
  simpl. now rewrite H1, H2.
Qed.

(** Decoding inverts encoding, from any point between two groups. *)
Lemma a2b_b2a_loop (data out : bytes) :
  a2b_base64_loop (b2a_base64 data) 0 0 0 out = Returns (out ++ data).
Proof.
  revert out. induction data as [|a|a b|a b c data IH] using list_ind3; intros out.
  - simpl. now rewrite app_nil_r.
  - cbn [b2a_base64].
    rewrite (loop_char _ _ _ _ _ _ _ (char_v0 a)).
    rewrite (loop_char _ _ _ _ _ _ _ (char_v1_last a)).
    pose proof (join_first_last a) as J. apply byte_eqb_eq in J.
    rewrite J. reflexivity.
  - cbn [b2a_base64].
    rewrite (loop_char _ _ _ _ _ _ _ (char_v0 a)).
    rewrite (loop_char _ _ _ _ _ _ _ (char_v1 a b)).
    rewrite (loop_char _ _ _ _ _ _ _ (char_v2_last b)).
    pose proof (join_first a b) as J1. apply byte_eqb_eq in J1.
    pose proof (left_after_second a b) as L. apply N.eqb_eq in L.
    pose proof (join_second_last b) as J2. apply byte_eqb_eq in J2.
    rewrite J1, L, J2.
    rewrite <- app_assoc. reflexivity.
  - cbn [b2a_base64].
    rewrite (loop_char _ _ _ _ _ _ _ (char_v0 a)).
    rewrite (loop_char _ _ _ _ _ _ _ (char_v1 a b)).
    rewrite (loop_char _ _ _ _ _ _ _ (char_v2 b c)).
    rewrite (loop_char _ _ _ _ _ _ _ (char_v3 c)).
    pose proof (join_first a b) as J1. apply byte_eqb_eq in J1.
    pose proof (left_after_second a b) as L. apply N.eqb_eq in L.
    pose proof (join_second b c) as J2. apply byte_eqb_eq in J2.
    pose proof (join_third b c) as J3. apply byte_eqb_eq in J3.
    rewrite J1, L, J2, J3.
    rewrite IH. now rewrite <- !app_assoc.
Qed.

(** The encoder writes ASCII only. *)
Lemma b2a_base64_ascii (data : bytes) :
  Forall (fun c => (Byte.to_N c < 128)%N) (b2a_base64 data).
Proof.
  induction data as [|a|a b|a b c data IH] using list_ind3; cbn [b2a_base64].
  - constructor.
  - repeat constructor.
    + apply (char_of_value_spec _ _ (char_v0 a)).
    + apply (char_of_value_spec _ _ (char_v1_last a)).
  - repeat constructor.
    + apply (char_of_value_spec _ _ (char_v0 a)).
    + apply (char_of_value_spec _ _ (char_v1 a b)).
    + apply (char_of_value_spec _ _ (char_v2_last b)).
  - repeat constructor; [| | | |exact IH].
    + apply (char_of_value_spec _ _ (char_v0 a)).
    + apply (char_of_value_spec _ _ (char_v1 a b)).
    + apply (char_of_value_spec _ _ (char_v2 b c)).
    + apply (char_of_value_spec _ _ (char_v3 c)).
Qed.

(** The shape of an encoding: pad-free characters, then at most two pad
    characters, four characters per group. *)
Lemma b2a_base64_shape (data : bytes) :
  exists (chars : bytes) (n : nat),
    b2a_base64 data = chars ++ repeat BASE64_PAD n
    /\ (n <= 2)%nat
    /\ Forall (fun c => Byte.eqb c BASE64_PAD = false) chars
    /\ ((length chars + n) mod 4 = 0)%nat.
Proof.
  induction data as [|a|a b|a b c data IH] using list_ind3; cbn [b2a_base64].
  - exists [], 0%nat. repeat split; [lia|constructor].
  - exists [table_b2a_base64 (v0 a); table_b2a_base64 (v1_last a)], 2%nat.
    repeat split; [lia|].
    repeat constructor.
    + apply (char_of_value_spec _ _ (char_v0 a)).
    + apply (char_of_value_spec _ _ (char_v1_last a)).
  - exists [table_b2a_base64 (v0 a); table_b2a_base64 (v1 a b);
            table_b2a_base64 (v2_last b)], 1%nat.
    repeat split; [lia|].
    repeat constructor.
    + apply (char_of_value_spec _ _ (char_v0 a)).
    + apply (char_of_value_spec _ _ (char_v1 a b)).
    + apply (char_of_value_spec _ _ (char_v2_last b)).
  - destruct IH as (chars & n & -> & Hn & Hc & Hl).
    exists (table_b2a_base64 (v0 a) :: table_b2a_base64 (v1 a b)
              :: table_b2a_base64 (v2 b c) :: table_b2a_base64 (v3 c) :: chars), n.
    repeat split; [assumption| |].
    + repeat constructor; [| | | |exact Hc].
      * apply (char_of_value_spec _ _ (char_v0 a)).
      * apply (char_of_value_spec _ _ (char_v1 a b)).
      * apply (char_of_value_spec _ _ (char_v2 b c)).
      * apply (char_of_value_spec _ _ (char_v3 c)).
    + cbn [length].
      replace (S (S (S (S (length chars)))) + n)%nat
        with ((length chars + n) + 1 * 4)%nat by lia.
      now rewrite Nat.Div0.mod_add.
Qed.

End Base64Facts.

Lemma ascii_encode_decode (data : bytes) :
  Forall (fun c => (Byte.to_N c < 128)%N) data ->
  ascii_encode (ascii_decode data) = Some data.
Proof.
  induction 1 as [|c data Hc _ IH]; simpl; [reflexivity|].
  apply N.ltb_lt in Hc. fold (ascii_decode data). rewrite Hc, IH. simpl.
  now rewrite byte_of_N_to_N.
Qed.

(** Decoding a Base64 text of the encoder gives the encoded bytes back. *)
Lemma b64decode_b64encode (data : bytes) :
  b64decode (b64encode data) = Returns data.
Proof.
  unfold b64decode, b64encode.
  rewrite ascii_encode_decode by apply b2a_base64_ascii.
  apply a2b_b2a_loop.
Qed.

Lemma lstrip_repeat (c : char) (n : nat) (s : str) :
  lstrip c (repeat c n ++ s) = lstrip c s.
Proof. induction n as [|n IH]; simpl; [reflexivity|]. now rewrite N.eqb_refl. Qed.

Lemma lstrip_none (c : char) (s : str) :
  Forall (fun x => N.eqb x c = false) s -> lstrip c s = s.
Proof. destruct 1 as [|x s Hx _]; simpl; [reflexivity|]. now rewrite Hx. Qed.

Lemma rev_repeat {A : Type} (x : A) (n : nat) : rev (repeat x n) = repeat x n.
Proof.
  induction n as [|n IH]; simpl; [reflexivity|].
  rewrite IH. change [x] with (repeat x 1). rewrite <- repeat_app.
  now rewrite Nat.add_1_r.
Qed.

Lemma rstrip_app_repeat (c : char) (s : str) (n : nat) :
  Forall (fun x => N.eqb x c = false) s -> rstrip c (s ++ repeat c n) = s.
Proof.
  intros H. unfold rstrip. rewrite rev_app_distr, rev_repeat, lstrip_repeat.
  rewrite lstrip_none; [apply rev_involutive|].
  apply Forall_forall. intros x Hx. apply in_rev in Hx.
  rewrite Forall_forall in H. now apply H.
Qed.

(** Stripping the padding of an encoder's text and padding it again, as
    line 50-52 do, gives the text back. *)
Lemma pad_envelope_rstrip (payload : bytes) :
  pad_envelope (rstrip EQUALS (b64encode payload)) = b64encode payload.
Proof.
  unfold b64encode.
  destruct (b2a_base64_shape payload) as (chars & n & -> & Hn & Hc & Hl).
  unfold ascii_decode. rewrite map_app, map_repeat.
  change (Byte.to_N BASE64_PAD) with EQUALS.
  rewrite rstrip_app_repeat.
  2:{ apply Forall_forall. intros x Hx. apply in_map_iff in Hx as (b & <- & Hb).
      rewrite Forall_forall in Hc. specialize (Hc b Hb).
      destruct (N.eqb_spec (Byte.to_N b) EQUALS) as [E|]; [|reflexivity].
      assert (b = BASE64_PAD) as ->.
      { rewrite <- (byte_of_N_to_N b), E. reflexivity. }
      now rewrite byte_eqb_refl in Hc. }
  unfold pad_envelope. rewrite length_map.
  assert (n = 0 \/ n = 1 \/ n = 2)%nat as [-> | [-> | ->]] by lia.
  - rewrite Nat.add_0_r in Hl. rewrite Hl. simpl. now rewrite app_nil_r.
  - assert (length chars mod 4 = 3)%nat as -> by
        (pose proof (Nat.Div0.div_mod (length chars + 1) 4);
         pose proof (Nat.Div0.div_mod (length chars) 4);
         pose proof (Nat.mod_upper_bound (length chars) 4); lia).
    reflexivity.
  - assert (length chars mod 4 = 2)%nat as -> by
        (pose proof (Nat.Div0.div_mod (length chars + 2) 4);
         pose proof (Nat.Div0.div_mod (length chars) 4);
         pose proof (Nat.mod_upper_bound (length chars) 4); lia).
    reflexivity.
Qed.

Lemma pad_envelope_spec (s : str) :
  pad_envelope s = s ++ repeat EQUALS ((4 - length s mod 4) mod 4)
  /\ (length (pad_envelope s) mod 4 = 0)%nat.
Proof.
  unfold pad_envelope.
  pose proof (Nat.mod_upper_bound (length s) 4 ltac:(lia)) as Hb.
  pose proof (Nat.Div0.div_mod (length s) 4) as Hd.
  destruct (Nat.eqb_spec (length s mod 4) 0) as [E|E]; cbn [negb].
  - rewrite E. simpl. rewrite app_nil_r. now split.
  - rewrite (Nat.mod_small (4 - length s mod 4)) by lia. split; [reflexivity|].
    rewrite length_app, repeat_length.
    replace (length s + (4 - length s mod 4))%nat
      with (0 + (length s / 4 + 1) * 4)%nat by lia.
    now rewrite Nat.Div0.mod_add.
Qed.

Section DecryptorFacts.

Variable exn_str : exn -> str.
Variable json_loads : bytes -> outcome pyval.
Variable requests_get : str -> outcome http_response.

Local Abbreviation decrypt := (decrypt_laravel_string_unsafe exn_str json_loads).
Local Abbreviation movie := (get_movie_details exn_str json_loads requests_get).


End DecryptorFacts.

(** ** AES: every step of a round has an inverse *)

Lemma to_N_inj (a b : byte) : Byte.to_N a = Byte.to_N b -> a = b.
Proof.
  intros H. rewrite <- (byte_of_N_to_N a), <- (byte_of_N_to_N b). now rewrite H.
Qed.

Lemma to_N_xor_byte (a b : byte) :
  Byte.to_N (xor_byte a b) = N.lxor (Byte.to_N a) (Byte.to_N b).
Proof.
  apply N.eqb_eq. revert a b. apply forall_byte2. vm_compute. reflexivity.
Qed.

Lemma xor_byte_cancel (a b : byte) : xor_byte (xor_byte a b) b = a.
Proof.
  apply to_N_inj. rewrite !to_N_xor_byte.
  now rewrite N.lxor_assoc, N.lxor_nilpotent, N.lxor_0_r.
Qed.

Lemma xor_bytes_length (a b : bytes) :
  length (xor_bytes a b) = Nat.min (length a) (length b).
Proof.
  revert b; induction a as [|x a IH]; intros [|y b]; simpl; auto.
Qed.

Lemma xor_bytes_cancel (a b : bytes) :
  (length a <= length b)%nat -> xor_bytes (xor_bytes a b) b = a.
Proof.
  revert b; induction a as [|x a IH]; intros [|y b]; simpl; intros H;
    try reflexivity; try lia.
  rewrite xor_byte_cancel, IH by lia. reflexivity.
Qed.

Lemma inv_sub_byte_sub_byte (b : byte) : inv_sub_byte (sub_byte b) = b.
Proof.
  apply byte_eqb_eq. revert b. apply forall_byte. vm_compute. reflexivity.
Qed.

Lemma inv_sub_bytes_sub_bytes (s : bytes) : inv_sub_bytes (sub_bytes s) = s.
Proof.
  unfold inv_sub_bytes, sub_bytes. rewrite map_map.
  rewrite <- (map_id s) at 2. apply map_ext. apply inv_sub_byte_sub_byte.
Qed.

Lemma inv_shift_rows_shift_rows (s : bytes) : inv_shift_rows (shift_rows s) = s.
Proof.
  do 17 (destruct s as [|? s]; [reflexivity|]). reflexivity.
Qed.

Lemma shift_rows_length (s : bytes) : length (shift_rows s) = length s.
Proof.
  do 17 (destruct s as [|? s]; [reflexivity|]). reflexivity.
Qed.

Lemma xtime_xor (a b : byte) : xtime (xor_byte a b) = xor_byte (xtime a) (xtime b).
Proof.
  apply byte_eqb_eq. revert a b. apply forall_byte2. vm_compute. reflexivity.
Qed.

(** An equation between exclusive-or combinations of bytes, decided bit by
    bit. *)
Ltac xor_bits :=
  apply to_N_inj; rewrite ?to_N_xor_byte;
  apply N.bits_inj; intros ?; rewrite ?N.lxor_spec; btauto.

Lemma inv_mix_column (a0 a1 a2 a3 : byte) (rest : bytes) :
  inv_mix_columns (mix_columns (a0 :: a1 :: a2 :: a3 :: rest))
  = a0 :: a1 :: a2 :: a3 :: inv_mix_columns (mix_columns rest).
Proof.
  cbn [mix_columns inv_mix_columns].
  unfold xor4, gmul2, gmul3, gmul9, gmul11, gmul13, gmul14.
  rewrite !xtime_xor.
  f_equal; [xor_bits|]. f_equal; [xor_bits|]. f_equal; [xor_bits|].
  f_equal. xor_bits.
Qed.

Lemma inv_mix_columns_mix_columns (s : bytes) : inv_mix_columns (mix_columns s) = s.
Proof.
  enough (forall n s, (length s <= n)%nat -> inv_mix_columns (mix_columns s) = s)
    by eauto.
  clear s. induction n as [|n IH]; intros s Hs.
  - destruct s; [reflexivity|simpl in Hs; lia].
  - destruct s as [|a0 [|a1 [|a2 [|a3 rest]]]]; try reflexivity.
    rewrite inv_mix_column. do 4 f_equal. apply IH. simpl in Hs. lia.
Qed.

Lemma mix_columns_length (s : bytes) : length (mix_columns s) = length s.
Proof.
  enough (forall n s, (length s <= n)%nat -> length (mix_columns s) = length s)
    by eauto.
  clear s. induction n as [|n IH]; intros s Hs.
  - destruct s; [reflexivity|simpl in Hs; lia].
  - destruct s as [|a0 [|a1 [|a2 [|a3 rest]]]]; try reflexivity.
    cbn [mix_columns length]. do 4 f_equal. apply IH. simpl in Hs. lia.
Qed.

(** ** AES: the inverse cipher inverts the cipher *)

Lemma add_round_key_cancel (rk s : bytes) :
  length rk = block_size -> length s = block_size ->
  add_round_key rk (add_round_key rk s) = s.
Proof. intros Hk Hs. unfold add_round_key. apply xor_bytes_cancel. lia. Qed.

Lemma add_round_key_length (rk s : bytes) :
  length rk = block_size -> length s = block_size ->
  length (add_round_key rk s) = block_size.
Proof. intros Hk Hs. unfold add_round_key. rewrite xor_bytes_length. lia. Qed.

Lemma sub_bytes_length (s : bytes) : length (sub_bytes s) = length s.
Proof. apply length_map. Qed.

Lemma cipher_rounds_length (rks : list bytes) (s : bytes) :
  block_keys rks -> length s = block_size ->
  length (cipher_rounds rks s) = block_size.
Proof.
  intros Hk. revert s. induction Hk as [|rk rks Hrk Hk IH]; intros s Hs; [assumption|].
  cbn [cipher_rounds]. destruct rks as [|rk' rks'].
  - apply add_round_key_length; [assumption|].
    now rewrite shift_rows_length, sub_bytes_length.
  - apply IH. apply add_round_key_length; [assumption|].
    now rewrite mix_columns_length, shift_rows_length, sub_bytes_length.
Qed.

Lemma cipher_length (rks : list bytes) (block : bytes) :
  block_keys rks -> length block = block_size ->
  length (cipher rks block) = block_size.
Proof.
  intros Hk Hb. destruct Hk as [|rk0 rks Hrk Hk]; [assumption|].
  apply cipher_rounds_length; [assumption|]. now apply add_round_key_length.
Qed.

(** The inverse rounds undo the rounds: what is left to do is the work of
    the earlier keys, [tail], on the state before the rounds. *)
Lemma inv_cipher_rounds_cipher_rounds (rks tail : list bytes) (x : bytes) :
  rks <> [] -> tail <> [] -> block_keys rks -> length x = block_size ->
  inv_cipher_rounds (rev (removelast rks) ++ tail)
                    (add_round_key (last rks []) (cipher_rounds rks x))
  = inv_cipher_rounds tail (shift_rows (sub_bytes x)).
Proof.
  intros Hne Ht Hk. revert x tail Ht.
  induction Hk as [|rk rks Hrk Hk IH]; intros x tail Ht Hx; [contradiction|].
  assert (Hpre : length (shift_rows (sub_bytes x)) = block_size)
    by now rewrite shift_rows_length, sub_bytes_length.
  destruct rks as [|rk' rks'].
  - cbn [cipher_rounds removelast rev app last].
    now rewrite add_round_key_cancel.
  - assert (Hx' : length (add_round_key rk (mix_columns (shift_rows (sub_bytes x))))
                  = block_size)
      by (apply add_round_key_length; [assumption|now rewrite mix_columns_length]).
    change (cipher_rounds (rk :: rk' :: rks') x)
      with (cipher_rounds (rk' :: rks')
              (add_round_key rk (mix_columns (shift_rows (sub_bytes x))))).
    change (last (rk :: rk' :: rks') []) with (last (rk' :: rks') []).
    change (removelast (rk :: rk' :: rks')) with (rk :: removelast (rk' :: rks')).
    cbn [rev]. rewrite <- app_assoc. cbn [app].
    etransitivity;
      [apply (IH ltac:(discriminate) _ (rk :: tail) ltac:(discriminate) Hx')|].
    destruct tail as [|t tail']; [contradiction|].
    cbn [inv_cipher_rounds].
    rewrite inv_shift_rows_shift_rows, inv_sub_bytes_sub_bytes.
    rewrite add_round_key_cancel by (assumption || now rewrite mix_columns_length).
    now rewrite inv_mix_columns_mix_columns.
Qed.

Lemma rev_cons_last {A : Type} (x d : A) (l : list A) :
  l <> [] -> rev (x :: l) = last l d :: rev (removelast l) ++ [x].
Proof.
  intros Hne. simpl. rewrite (app_removelast_last d Hne) at 1.
  now rewrite rev_app_distr.
Qed.

Lemma inv_cipher_cipher (rks : list bytes) (block : bytes) :
  block_keys rks -> length block = block_size ->
  inv_cipher rks (cipher rks block) = block.
Proof.
  intros Hk Hb. destruct Hk as [|rk0 rks Hrk0 Hk]; [reflexivity|].
  unfold inv_cipher, cipher.
  destruct rks as [|rk rks'].
  - cbn [rev app cipher_rounds inv_cipher_rounds].
    now apply add_round_key_cancel.
  - assert (Hne : rk :: rks' <> []) by discriminate.
    rewrite (rev_cons_last rk0 [] _ Hne).
    pose proof (add_round_key_length rk0 block Hrk0 Hb) as Hx.
    etransitivity;
      [apply (inv_cipher_rounds_cipher_rounds (rk :: rks') [rk0] _ Hne
                ltac:(discriminate) Hk Hx)|].
    cbn [inv_cipher_rounds].
    rewrite inv_shift_rows_shift_rows, inv_sub_bytes_sub_bytes.
    now apply add_round_key_cancel.
Qed.

(** ** The key schedule gives round keys of one block each *)

Lemma chunks_lengths {A : Type} (size n : nat) (l : list A) :
  length l = (size * n)%nat ->
  length (chunks size n l) = n
  /\ Forall (fun c => length c = size) (chunks size n l).
Proof.
  revert l. induction n as [|n IH]; intros l Hl; simpl; [now split|].
  destruct (IH (skipn size l)) as [IH1 IH2]; [rewrite length_skipn; lia|].
  split; [now rewrite IH1|].
  constructor; [|assumption]. rewrite length_firstn. lia.
Qed.

Lemma concat_length_uniform {A : Type} (size : nat) (w : list (list A)) :
  Forall (fun c => length c = size) w -> length (concat w) = (size * length w)%nat.
Proof.
  induction 1 as [|c w Hc _ IH]; simpl; [lia|]. rewrite length_app, IH, Hc. lia.
Qed.

Lemma nth_word_length (w : list bytes) (i : nat) :
  Forall (fun c => length c = 4%nat) w -> (i < length w)%nat ->
  length (nth i w []) = 4%nat.
Proof.
  intros Hw Hi. rewrite Forall_forall in Hw. apply Hw. now apply nth_In.
Qed.

Lemma key_expansion_loop_words (steps Nk i : nat) (rcon : byte) (w : list bytes) :
  (1 <= Nk <= i)%nat -> length w = i ->
  Forall (fun c => length c = 4%nat) w ->
  length (key_expansion_loop steps Nk i rcon w) = (i + steps)%nat
  /\ Forall (fun c => length c = 4%nat) (key_expansion_loop steps Nk i rcon w).
Proof.
  revert i rcon w. induction steps as [|steps IH]; intros i rcon w Hi Hl Hw.
  - simpl. split; [lia|assumption].
  - assert (Ht : length (nth (i - 1) w []) = 4%nat)
      by (apply nth_word_length; [assumption|lia]).
    assert (Hp : length (nth (i - Nk) w []) = 4%nat)
      by (apply nth_word_length; [assumption|lia]).
    assert (Hrot : length (rot_word (nth (i - 1) w [])) = 4%nat).
    { destruct (nth (i - 1) w []) as [|a r]; [discriminate|].
      simpl in *. rewrite length_app. simpl. lia. }
    assert (Hgo : forall rcon' word, length word = 4%nat ->
              length (key_expansion_loop steps Nk (S i) rcon'
                        (w ++ [xor_bytes (nth (i - Nk) w []) word]))
              = (i + S steps)%nat
              /\ Forall (fun c => length c = 4%nat)
                        (key_expansion_loop steps Nk (S i) rcon'
                           (w ++ [xor_bytes (nth (i - Nk) w []) word]))).
    { intros rcon' word Hword.
      destruct (IH (S i) rcon' (w ++ [xor_bytes (nth (i - Nk) w []) word]))
        as [H1 H2].
      - lia.
      - rewrite length_app. simpl. lia.
      - apply Forall_app. split; [assumption|]. constructor; [|constructor].
        rewrite xor_bytes_length. lia.
      - split; [lia|assumption]. }
    cbn [key_expansion_loop].
    destruct (i mod Nk =? 0)%nat.
    + apply Hgo. rewrite xor_bytes_length, sub_bytes_length, Hrot. reflexivity.
    + destruct ((6 <? Nk)%nat && (i mod Nk =? 4)%nat).
      * apply Hgo. now rewrite sub_bytes_length.
      * now apply Hgo.
Qed.

Lemma key_expansion_block_keys (key : bytes) :
  length key = 16%nat \/ length key = 24%nat \/ length key = 32%nat ->
  block_keys (key_expansion key).
Proof.
  intros Hlen. unfold key_expansion, block_keys.
  set (Nk := (length key / 4)%nat).
  assert (HNk : (Nk = 4 \/ Nk = 6 \/ Nk = 8)%nat /\ length key = (4 * Nk)%nat).
  { unfold Nk. destruct Hlen as [-> | [-> | ->]]; simpl; lia. }
  destruct HNk as [HNk Hkey].
  destruct (chunks_lengths 4 Nk key Hkey) as [Hc1 Hc2].
  destruct (key_expansion_loop_words (4 * (Nk + 6 + 1) - Nk) Nk Nk x01
              (chunks 4 Nk key) ltac:(lia) Hc1 Hc2) as [Hw1 Hw2].
  apply chunks_lengths.
  rewrite (concat_length_uniform 4) by assumption.
  rewrite Hw1. unfold block_size. lia.
Qed.

(** ** CBC decryption inverts CBC encryption *)

Lemma cbc_loop_roundtrip (rks : list bytes) (n : nat) (prev data : bytes) :
  block_keys rks -> length prev = block_size -> length data = (block_size * n)%nat ->
  length (cbc_encrypt_loop rks n prev data) = (block_size * n)%nat
  /\ cbc_decrypt_loop rks n prev (cbc_encrypt_loop rks n prev data) = data.
Proof.
  intros Hk. revert prev data. induction n as [|n IH]; intros prev data Hp Hd.
  - simpl. destruct data; [now split|simpl in Hd; lia].
  - cbn [cbc_encrypt_loop cbc_decrypt_loop].
    set (p := firstn block_size data).
    assert (Hpl : length p = block_size)
      by (unfold p; rewrite length_firstn; lia).
    assert (Hx : length (xor_bytes p prev) = block_size)
      by (rewrite xor_bytes_length; lia).
    set (c := cipher rks (xor_bytes p prev)).
    assert (Hc : length c = block_size) by now apply cipher_length.
    destruct (IH c (skipn block_size data) Hc) as [IH1 IH2];
      [rewrite length_skipn; lia|].
    split; [rewrite length_app, IH1; lia|].
    rewrite firstn_app, firstn_all2 by lia.
    rewrite Hc, Nat.sub_diag, firstn_O, app_nil_r.
    rewrite skipn_app, skipn_all2 by lia.
    rewrite Hc, Nat.sub_diag, skipn_O. cbn [app].
    fold c. unfold c at 1. rewrite inv_cipher_cipher by assumption.
    rewrite xor_bytes_cancel by lia.
    rewrite IH2. apply firstn_skipn.
Qed.

(** ** Unpadding inverts padding *)

Lemma last_app_repeat {A : Type} (l : list A) (x d : A) (n : nat) :
  last (l ++ repeat x (S n)) d = x.
Proof.
  replace (S n) with (n + 1)%nat by lia. rewrite repeat_app, app_assoc.
  apply last_last.
Qed.

Lemma bytes_eqb_refl (a : bytes) : bytes_eqb a a = true.
Proof. now apply bytes_eqb_eq. Qed.

Lemma unpad_pad (data : bytes) (size : nat) :
  (1 <= size <= 255)%nat -> unpad (pad data size) size = Returns data.
Proof.
  intros Hs. unfold unpad, pad.
  pose proof (Nat.mod_upper_bound (length data) size ltac:(lia)) as Hm.
  pose proof (Nat.Div0.div_mod (length data) size) as Hdm.
  set (k := (size - length data mod size)%nat) in *.
  assert (Hk : (1 <= k <= size)%nat) by (unfold k; lia).
  rewrite length_app, repeat_length.
  destruct (Nat.eqb_spec (length data + k) 0); [lia|].
  assert (Hmod : ((length data + k) mod size = 0)%nat).
  { replace (length data + k)%nat with (0 + (length data / size + 1) * size)%nat
      by (unfold k; nia).
    now rewrite Nat.Div0.mod_add, Nat.Div0.mod_0_l. }
  rewrite Hmod. cbn [Nat.eqb negb].
  destruct k as [|k']; [lia|].
  rewrite last_app_repeat.
  rewrite Byte.to_nat_via_N, to_N_byte_of_N by lia. rewrite Nat2N.id.
  destruct (Nat.ltb_spec (S k') 1); [lia|].
  destruct (Nat.ltb_spec (Nat.min size (length data + S k')) (S k')); [lia|].
  cbn [orb].
  replace (length data + S k' - S k')%nat with (length data) by lia.
  rewrite skipn_app, skipn_all, Nat.sub_diag, skipn_O. cbn [app].
  rewrite bytes_eqb_refl. cbn [negb].
  now rewrite firstn_app, firstn_all, Nat.sub_diag, firstn_O, app_nil_r.
Qed.

(** ** UTF-8: decoding inverts encoding *)

(** Linear arithmetic with division and remainder by constants. *)
Ltac div_lia := zify; Z.to_euclidean_division_equations; lia.

Ltac split_ltb :=
  repeat match goal with
         | |- context [(?a <? ?b)%N] => destruct (N.ltb_spec a b); try div_lia
         | |- context [(?a <=? ?b)%N] => destruct (N.leb_spec a b); try div_lia
         end.

Lemma Some_inj {A : Type} (x y : A) : Some x = Some y -> x = y.
Proof. now intros [= ->]. Qed.

Lemma utf8_decode_encode_char (c : char) (b rest : bytes) :
  utf8_encode_char c = Some b ->
  utf8_decode_opt (b ++ rest) = option_map (cons c) (utf8_decode_opt rest).
Proof.
  unfold utf8_encode_char, is_surrogate.
  assert (E2 : (c / 4096 = c / 64 / 64)%N) by (now rewrite N.Div0.div_div).
  assert (E3 : (c / 262144 = c / 4096 / 64)%N) by (now rewrite N.Div0.div_div).
  destruct (N.ltb_spec c 0x80) as [H1|H1].
  { intros E; apply Some_inj in E; subst b. cbn [app utf8_decode_opt].
    rewrite to_N_byte_of_N by lia.
    destruct (N.ltb_spec c 0x80); [reflexivity|lia]. }
  destruct (N.ltb_spec c 0x800) as [H2|H2].
  { intros E; apply Some_inj in E; subst b. cbn [app utf8_decode_opt].
    unfold is_cont.
    rewrite !to_N_byte_of_N by div_lia.
    split_ltb. cbn [andb]. do 2 f_equal. div_lia. }
  destruct (N.ltb_spec c 0x10000) as [H3|H3].
  { destruct ((0xD800 <=? c)%N && (c <=? 0xDFFF)%N) eqn:Hsur; [discriminate|].
    intros E; apply Some_inj in E; subst b. cbn [app utf8_decode_opt].
    unfold is_cont, is_surrogate.
    rewrite !to_N_byte_of_N by div_lia.
    replace ((0xE0 + c / 4096 - 0xE0) * 4096
             + (0x80 + (c / 64) mod 64 - 0x80) * 64
             + (0x80 + c mod 64 - 0x80))%N with c by div_lia.
    rewrite Hsur. split_ltb. reflexivity. }
  destruct (N.ltb_spec c 0x110000) as [H4|H4]; [|discriminate].
  intros E; apply Some_inj in E; subst b. cbn [app utf8_decode_opt].
  unfold is_cont.
  rewrite !to_N_byte_of_N by div_lia.
  replace ((0xF0 + c / 262144 - 0xF0) * 262144
           + (0x80 + (c / 4096) mod 64 - 0x80) * 4096
           + (0x80 + (c / 64) mod 64 - 0x80) * 64
           + (0x80 + c mod 64 - 0x80))%N with c by div_lia.
  split_ltb. reflexivity.
Qed.

Lemma utf8_decode_encode_opt (s : str) (b : bytes) :
  utf8_encode_opt s = Some b -> utf8_decode_opt b = Some s.
Proof.
  revert b. induction s as [|c s IH]; intros b; simpl.
  - now intros [= <-].
  - destruct (utf8_encode_char c) as [bc|] eqn:Hc; [|discriminate].
    destruct (utf8_encode_opt s) as [bs|]; [|discriminate].
    intros [= <-]. rewrite (utf8_decode_encode_char c bc bs Hc).
    now rewrite (IH bs eq_refl).
Qed.

Lemma utf8_decode_encode (s : str) (b : bytes) :
  utf8_encode s = Returns b -> utf8_decode b = Returns s.
Proof.
  unfold utf8_encode, utf8_decode.
  destruct (utf8_encode_opt s) as [b'|] eqn:E; [|discriminate].
  intros [= <-]. now rewrite (utf8_decode_encode_opt s b' E).
Qed.

(** ** The round trip through an envelope *)

Lemma pad_envelope_b64encode (payload : bytes) :
  pad_envelope (b64encode payload) = b64encode payload.
Proof.
  destruct (pad_envelope_spec (b64encode payload)) as [Hp _].
  assert (length (b64encode payload) mod 4 = 0)%nat as Hl.
  { unfold b64encode, ascii_decode. rewrite length_map.
    destruct (b2a_base64_shape payload) as (chars & n & -> & _ & _ & Hl).
    now rewrite length_app, repeat_length. }
  rewrite Hl in Hp. simpl in Hp. now rewrite app_nil_r in Hp.
Qed.

Lemma pad_length (data : bytes) (size : nat) :
  (1 <= size)%nat ->
  (length (pad data size) mod size = 0)%nat
  /\ (length (pad data size) = size * (length (pad data size) / size))%nat.
Proof.
  intros Hs. unfold pad.
  pose proof (Nat.mod_upper_bound (length data) size ltac:(lia)) as Hm.
  pose proof (Nat.Div0.div_mod (length data) size) as Hdm.
  rewrite length_app, repeat_length.
  assert (Hmod : ((length data + (size - length data mod size)) mod size = 0)%nat).
  { replace (length data + (size - length data mod size))%nat
      with (0 + (length data / size + 1) * size)%nat by nia.
    now rewrite Nat.Div0.mod_add, Nat.Div0.mod_0_l. }
  split; [assumption|].
  pose proof (Nat.Div0.div_mod (length data + (size - length data mod size)) size).
  lia.
Qed.

Lemma Returns_inj {A : Type} (x y : A) : Returns x = Returns y -> x = y.
Proof. now intros [= ->]. Qed.

Section RoundTrip.

Variable exn_str : exn -> str.
Variable json_loads : bytes -> outcome pyval.

Local Abbreviation decrypt := (decrypt_laravel_string_unsafe exn_str json_loads).

(** The first stage on an envelope of the write side. *)
Lemma decode_envelope_wrapped (payload iv ciphertext : bytes) :
  json_wraps json_loads payload iv ciphertext ->
  decode_envelope json_loads (b64encode payload) = Returns (iv, ciphertext).
Proof.
  intros (d & Hload & Hiv & Hval). unfold decode_envelope.
  rewrite pad_envelope_b64encode, b64decode_b64encode. cbn [bind].
  rewrite Hload. cbn [bind subscript]. rewrite Hiv. cbn [bind b64decode_val].
  rewrite b64decode_b64encode. cbn [bind]. rewrite Hval. cbn [bind b64decode_val].
  now rewrite b64decode_b64encode.
Qed.

(** The second stage on what the write side encrypted. *)
Lemma decrypt_value_encrypted (app_key_str plaintext : str) (iv ciphertext : bytes) :
  spec_encrypt_value app_key_str iv plaintext = Returns ciphertext ->
  decrypt_value app_key_str iv ciphertext = Returns (unwrap plaintext).
Proof.
  unfold spec_encrypt_value, decrypt_value.
  destruct (utf8_encode app_key_str) as [key_bytes|] eqn:Hkey; [|discriminate].
  destruct (utf8_encode plaintext) as [data|] eqn:Hdata; [|discriminate].
  cbn [bind]. unfold aes_new_cbc.
  destruct (negb _) eqn:Hlen; [discriminate|].
  destruct (negb (length iv =? block_size)%nat) eqn:Hiv; [discriminate|].
  cbn [bind]. unfold cbc_encrypt, cbc_decrypt. cbn [fst snd].
  destruct (pad_length data block_size ltac:(unfold block_size; lia)) as [Hmod Hdiv].
  rewrite Hmod. cbn [Nat.eqb negb].
  intros E. apply Returns_inj in E. subst ciphertext.
  apply negb_false_iff in Hlen, Hiv. apply Nat.eqb_eq in Hiv.
  assert (Hk : block_keys (key_expansion key_bytes)).
  { apply key_expansion_block_keys.
    apply orb_true_iff in Hlen as [Hlen|Hlen];
      [apply orb_true_iff in Hlen as [Hlen|Hlen]|];
      apply Nat.eqb_eq in Hlen; auto. }
  destruct (cbc_loop_roundtrip (key_expansion key_bytes)
              (length (pad data block_size) / block_size) iv
              (pad data block_size) Hk Hiv Hdiv) as [Hl Hrt].
  rewrite Hl.
  replace (block_size * (length (pad data block_size) / block_size))%nat
    with (length (pad data block_size)) by exact Hdiv.
  rewrite Hmod. cbn [Nat.eqb negb bind].
  rewrite Hrt, unpad_pad by (unfold block_size; lia). cbn [bind].
  now rewrite (utf8_decode_encode plaintext data Hdata).
Qed.

Lemma encrypt_key_present (app_key_str plaintext : str) (iv ciphertext : bytes) :
  spec_encrypt_value app_key_str iv plaintext = Returns ciphertext ->
  key_missing (Some app_key_str) = false.
Proof.
  destruct app_key_str; [|reflexivity].
  unfold spec_encrypt_value. cbn [utf8_encode utf8_encode_opt bind].
  destruct (utf8_encode plaintext); discriminate.
Qed.

(** The write side returns for every key of 32 bytes, IV of 16 bytes and
    plaintext that UTF-8 can encode. *)
Lemma spec_encrypt_value_returns (app_key_str plaintext : str)
      (key_bytes data iv : bytes) :
  utf8_encode app_key_str = Returns key_bytes -> length key_bytes = 32%nat ->
  length iv = 16%nat -> utf8_encode plaintext = Returns data ->
  exists ciphertext, spec_encrypt_value app_key_str iv plaintext = Returns ciphertext.
Proof.
  intros Hkey Hklen Hiv Hdata. unfold spec_encrypt_value, aes_new_cbc, cbc_encrypt.
  rewrite Hkey, Hdata. cbn [bind]. rewrite Hklen, Hiv.
  cbn [bind fst snd Nat.eqb negb orb block_size].
  destruct (pad_length data block_size ltac:(unfold block_size; lia)) as [Hmod _].
  rewrite Hmod. cbn [Nat.eqb negb]. eauto.
Qed.


End RoundTrip.

(** ** Concrete runs *)

(** The write side builds [sample_envelope] for the quoted URL. *)
Lemma sample_envelope_built :
  spec_envelope sample_key sample_iv sample_quoted = Returns sample_envelope.
Proof. vm_compute. reflexivity. Qed.

Lemma sample_record_normalized :
  normalize exn_text json_loads_ref (Some sample_key) (PDict sample_record)
  = Returns sample_normalized.
Proof. vm_compute. reflexivity. Qed.





Lemma sample_ciphertext_built :
  spec_encrypt_value sample_key sample_iv sample_quoted = Returns sample_ciphertext.
Proof. vm_compute. reflexivity. Qed.

Lemma sample_envelope_wraps :
  sample_envelope = b64encode (spec_json_wrap sample_iv sample_ciphertext)
  /\ json_wraps json_loads_ref (spec_json_wrap sample_iv sample_ciphertext)
                sample_iv sample_ciphertext.
Proof.
  split; [vm_compute; reflexivity|].
  exists [(lit "iv", PStr (b64encode sample_iv));
          (lit "value", PStr (b64encode sample_ciphertext))].
  repeat split.
Qed.


(** ** An exception the first [try] does not catch *)

Lemma array_envelope_payload :
  b64decode (pad_envelope array_envelope) = Returns (blit "[]").
Proof. vm_compute. reflexivity. Qed.

Section UncaughtFacts.

Variable exn_str : exn -> str.
Variable json_loads : bytes -> outcome pyval.
Variable requests_get : str -> outcome http_response.

Local Abbreviation decrypt := (decrypt_laravel_string_unsafe exn_str json_loads).
Local Abbreviation movie := (get_movie_details exn_str json_loads requests_get).

Lemma decrypt_raises_on_decode (encrypted : str) (app_key_str : option str) (e : exn) :
  key_missing app_key_str = false ->
  decode_envelope json_loads encrypted = Raises e ->
  except_matches [JSONDecodeError; BinasciiError; KeyError] e = false ->
  decrypt encrypted app_key_str = Raises e.
Proof.
  intros Hk Hd He. unfold decrypt_laravel_string_unsafe. now rewrite Hk, Hd, He.
Qed.


Lemma decrypt_fields_raises (app_key_str : option str) (key s : str)
      (rest : list str) (d : dict pyval) (e : exn) :
  dict_get key d = Some (PStr s) ->
  decrypt s app_key_str = Raises e ->
  decrypt_fields exn_str json_loads app_key_str (key :: rest) d = Raises e.
Proof. intros Hd He. cbn [decrypt_fields]. now rewrite Hd, He. Qed.


End UncaughtFacts.


(** * Further properties of the decryptor *)

Lemma ascii_encode_app_none (s t : str) :
  ascii_encode s = None -> ascii_encode (s ++ t) = None.
Proof.
  induction s as [|c s IH]; simpl; [discriminate|].
  destruct (c <? 128)%N; [|reflexivity].
  destruct (ascii_encode s); [discriminate|]. intros _. now rewrite IH.
Qed.

Lemma ascii_encode_non_ascii (s : str) (c : char) :
  In c s -> (128 <= c)%N -> ascii_encode s = None.
Proof.
  induction s as [|x s IH]; simpl; [easy|].
  intros [->|Hin] Hc.
  - destruct (N.ltb_spec c 128); [lia|reflexivity].
  - rewrite (IH Hin Hc). now destruct (x <? 128)%N.
Qed.

Lemma pad_envelope_app (s : str) : exists n, pad_envelope s = s ++ repeat EQUALS n.
Proof. eexists. apply pad_envelope_spec. Qed.

Section DecryptorOutcomes.

Variable exn_str : exn -> str.
Variable json_loads : bytes -> outcome pyval.

Local Abbreviation decrypt := (decrypt_laravel_string_unsafe exn_str json_loads).







End DecryptorOutcomes.






(** * Further properties of the normaliser *)

Lemma dict_set_NoDup {V : Type} (k : str) (v : V) (d : dict V) :
  NoDup (keys d) -> NoDup (keys (dict_set k v d)).
Proof.
  intros H. destruct (dict_mem k d) eqn:Hm.
  - apply dict_mem_in in Hm. now rewrite keys_set_old.
  - apply dict_mem_false in Hm. rewrite keys_set_new by assumption.
    apply NoDup_app; [assumption|repeat constructor; easy|].
    intros a Ha [<-|[]]. contradiction.
Qed.

Lemma dict_set_keys_app {V : Type} (k : str) (v : V) (d : dict V) :
  exists extra, keys (dict_set k v d) = keys d ++ extra
                /\ forall a, In a extra -> a = k.
Proof.
  destruct (dict_mem k d) eqn:Hm.
  - apply dict_mem_in in Hm. exists []. rewrite keys_set_old, app_nil_r by assumption.
    now split.
  - apply dict_mem_false in Hm. exists [k]. rewrite keys_set_new by assumption.
    split; [reflexivity|]. now intros a [<-|[]].
Qed.

Lemma filter_none {A : Type} (f : A -> bool) (l : list A) :
  (forall a, In a l -> f a = false) -> filter f l = [].
Proof.
  induction l as [|x l IH]; simpl; intros H; [reflexivity|].
  rewrite (H x) by now left. apply IH. intros a Ha. apply H. now right.
Qed.

Lemma filter_all {A : Type} (f : A -> bool) (l : list A) :
  (forall a, In a l -> f a = true) -> filter f l = l.
Proof.
  induction l as [|x l IH]; simpl; intros H; [reflexivity|].
  rewrite (H x) by now left. f_equal. apply IH. intros a Ha. apply H. now right.
Qed.

(** Two dictionaries with the same keys in the same order, without
    repetition, and the same value under every key are the same. *)
Lemma dict_ext {V : Type} (a b : dict V) :
  keys a = keys b -> NoDup (keys a) ->
  (forall k, dict_get k a = dict_get k b) -> a = b.
Proof.
  revert b. induction a as [|[k v] a IH]; intros [|[k' w] b]; simpl;
    try discriminate; [reflexivity|].
  intros Hk Hnd Hget. injection Hk as <- Hk.
  inversion Hnd as [|? ? Hnotin Hnd']; subst.
  pose proof (Hget k) as Hkk. simpl in Hkk. rewrite str_eqb_refl in Hkk.
  injection Hkk as <-. f_equal. apply IH; [assumption|assumption|].
  intros k'. specialize (Hget k'). simpl in Hget.
  destruct (str_eqb k' k) eqn:E; [|assumption].
  apply str_eqb_eq in E. subst k'.
  transitivity (@None V); [|symmetry]; apply dict_get_none; [assumption|].
  now rewrite <- Hk.
Qed.

Lemma reorder_NoDup (order : list str) (d : dict pyval) :
  NoDup order -> NoDup (keys d) -> NoDup (keys (reorder order d)).
Proof.
  intros Ho Hd. rewrite reorder_keys by assumption.
  apply NoDup_app; [now apply NoDup_filter|now apply NoDup_filter|].
  intros k Hk Hk'. apply filter_In in Hk as [Hk _], Hk' as [_ Hk'].
  apply existsb_str_eqb in Hk. now rewrite Hk in Hk'.
Qed.

Lemma PREFERRED_NoDup : NoDup PREFERRED_MOVIE_KEY_ORDER.
Proof. apply nodupb_NoDup. reflexivity. Qed.



Section NormalizerOutcomes.

Variable exn_str : exn -> str.
Variable json_loads : bytes -> outcome pyval.

Local Abbreviation decrypt := (decrypt_laravel_string_unsafe exn_str json_loads).

Lemma decrypt_fields_keys_app (app_key_str : option str) (fields : list str)
      (d d1 : dict pyval) :
  decrypt_fields exn_str json_loads app_key_str fields d = Returns d1 ->
  NoDup (keys d) ->
  NoDup (keys d1)
  /\ exists extra, keys d1 = keys d ++ extra /\ forall a, In a extra -> In a fields.
Proof.
  revert d. induction fields as [|key rest IH]; intros d H Hnd.
  - apply Returns_inj in H. subst d1. split; [assumption|].
    exists []. now rewrite app_nil_r.
  - apply decrypt_fields_step in H as (v & H & _).
    destruct (IH _ H (dict_set_NoDup key v d Hnd)) as (Hnd1 & extra & E & Hex).
    split; [assumption|].
    destruct (dict_set_keys_app key v d) as (e0 & E0 & He0).
    exists (e0 ++ extra). rewrite E, E0, <- app_assoc. split; [reflexivity|].
    intros a Ha. apply in_app_or in Ha as [Ha|Ha].
    + left. symmetry. now apply He0.
    + right. now apply Hex.
Qed.



End NormalizerOutcomes.



(** * Further properties of the handlers *)

Section HandlerOutcomes.

Variable exn_str : exn -> str.
Variable json_loads : bytes -> outcome pyval.
Variable requests_get : str -> outcome http_response.

Local Abbreviation movie := (get_movie_details exn_str json_loads requests_get).
Local Abbreviation search := (search_movies exn_str requests_get).






End HandlerOutcomes.






(** * Further properties of the unwrapper *)

Lemma strip_quotes_quoted (y : str) : strip_quotes (DQUOTE :: y ++ [DQUOTE]) = y.
Proof.
  unfold strip_quotes.
  change (DQUOTE :: y ++ [DQUOTE]) with ((DQUOTE :: y) ++ [DQUOTE]) at 2.
  rewrite endswith_app.
  change (startswith (DQUOTE :: y ++ [DQUOTE]) [DQUOTE]) with true.
  cbv beta iota. cbn [andb].
  unfold py_slice, adjust_index. cbn [length]. rewrite length_app. cbn [length].
  change (1 <? 0)%Z with false. change (-1 <? 0)%Z with true. cbv iota.
  replace (Z.to_nat (Z.min 1 (Z.of_nat (S (length y + 1))))) with 1%nat by lia.
  replace (Z.to_nat (Z.max 0 (-1 + Z.of_nat (S (length y + 1)))) - 1)%nat
    with (length y) by lia.
  cbn [skipn]. now rewrite firstn_app, firstn_all, Nat.sub_diag, firstn_O, app_nil_r.
Qed.

Lemma py_slice_infix {A : Type} (s : list A) (i j : Z) :
  exists a b, s = a ++ py_slice s i j ++ b.
Proof.
  unfold py_slice.
  exists (firstn (adjust_index (length s) i) s),
         (skipn (adjust_index (length s) j - adjust_index (length s) i)
                (skipn (adjust_index (length s) i) s)).
  now rewrite !firstn_skipn.
Qed.

Lemma strip_quotes_infix (x : str) : exists a b, x = a ++ strip_quotes x ++ b.
Proof.
  unfold strip_quotes.
  destruct (startswith x [DQUOTE] && endswith x [DQUOTE]);
    [apply py_slice_infix|].
  exists [], []. now rewrite app_nil_r.
Qed.

Lemma strip_php_serialized_infix (x : str) :
  exists a b, x = a ++ strip_php_serialized x ++ b.
Proof.
  unfold strip_php_serialized.
  repeat match goal with
         | |- context [if ?b then _ else _] => destruct b
         end;
    try apply py_slice_infix; exists [], []; now rewrite app_nil_r.
Qed.






(** * The handlers always answer *)

Section HandlerTotality.

Variable exn_str : exn -> str.
Variable json_loads : bytes -> outcome pyval.
Variable requests_get : str -> outcome http_response.

Local Abbreviation movie := (get_movie_details exn_str json_loads requests_get).
Local Abbreviation search := (search_movies exn_str requests_get).

Lemma handle_request_errors_bound (response : http_response) (e : exn) :
  exists r, handle_request_errors exn_str (Some response) e = Returns r.
Proof.
  unfold handle_request_errors. rewrite (except_Exception e).
  repeat match goal with
         | |- context [if ?b then _ else _] => destruct b
         end; eexists; reflexivity.
Qed.

Lemma handle_request_errors_unbound (e : exn) :
  except_matches [HTTPError] e = false ->
  exists r, handle_request_errors exn_str None e = Returns r.
Proof.
  intros H. unfold handle_request_errors. rewrite H, (except_Exception e).
  repeat match goal with
         | |- context [if ?b then _ else _] => destruct b
         end; eexists; reflexivity.
Qed.



End HandlerTotality.


